(** * interactionTutorial: the synth voices and the three applications

    A shallow embedding of the tutorial programs
    [03_presets.cpp], the SynthRecorder/SynthSequencer tutorial and
    [09_audio_spatialization.cpp].  The programs are glue over an
    application framework (allolib) and a DSP library (Gamma); what the
    sources call into but do not define is kept abstract in the class
    [Framework] below. *)

From Stdlib Require Import ZArith QArith Lia Bool List.
From Stdlib Require Import Floats.SpecFloat.
From stdpp Require Import base list strings pretty.

Local Open Scope Z_scope.

(** ** Binary floating point

    [float] is IEEE binary32 and [double] binary64, both carried by the
    Standard Library's [spec_float] with the operations instantiated at
    the format's precision and exponent range. *)

Definition float := spec_float.
Definition double := spec_float.

Module F32.
Definition prec : Z := 24.
Definition emax : Z := 128.
Definition valid (x : float) : bool := valid_binary prec emax x.
Definition mul (x y : float) : float := SFmul prec emax x y.
Definition div (x y : float) : float := SFdiv prec emax x y.
Definition add (x y : float) : float := SFadd prec emax x y.
Definition leb (x y : float) : bool := SFleb x y.
Definition ltb (x y : float) : bool := SFltb x y.
(** conversion of an [int] *)
Definition of_Z (z : Z) : float := binary_normalize prec emax z 0 false.
(** conversion of a [double] (rounds to nearest, ties to even) *)
Definition of_double (d : double) : float :=
  match d with
  | S754_finite s m e => binary_round prec emax s m e
  | _ => d
  end.
End F32.

Module F64.
Definition prec : Z := 53.
Definition emax : Z := 1024.
Definition valid (x : double) : bool := valid_binary prec emax x.
Definition mul (x y : double) : double := SFmul prec emax x y.
Definition div (x y : double) : double := SFdiv prec emax x y.
Definition add (x y : double) : double := SFadd prec emax x y.
Definition of_Z (z : Z) : double := binary_normalize prec emax z 0 false.
(** promotion of a [float] (exact) *)
Definition of_float (x : float) : double :=
  match x with
  | S754_finite s m e => binary_round prec emax s m e
  | _ => x
  end.
End F64.

(** ** C [int] *)

Definition INT_MIN : Z := - 2 ^ 31.
Definition INT_MAX : Z := 2 ^ 31 - 1.

(** two's complement wrap-around of a 32-bit [int] *)
Definition wrap_int (z : Z) : Z := (z + 2 ^ 31) mod 2 ^ 32 - 2 ^ 31.

Definition int_sub (a b : Z) : Z := wrap_int (a - b).

(** ** [float *]

    The p-field buffer a voice is handed is modelled by the cells it
    addresses, by index; the buffer is the caller's, the sequencer of
    the framework, which sizes it. *)

Definition cells := nat -> float.

Definition store (i : nat) (x : float) (p : cells) : cells :=
  fun j => if Nat.eqb j i then x else p j.

(** ** What the framework provides

    The oscillator's phase, the envelope's stage, the generators that
    advance them, libm's [powf], the keyboard helpers and the random
    number generator are used by the sources and defined outside them.

    gam::AD<> is Gamma's attack/decay envelope.  It has two segments:
    the constructor of a voice gives it two lengths and three levels,
    and [lengths()] points at the first of an array of two.  An index
    of 2 or more is past that array.  C++ gives such an access no
    meaning; what the envelope object as compiled yields there, and
    what a write there changes of it, is left open as [env_past_load]
    and [env_past_store], which work on the rest of the object. *)

Class Framework := {
  (** gam::Sine<> beyond its frequency *)
  SinePhase : Type;
  (** gam::AD<> beyond its two segment lengths *)
  EnvStage : Type;
  (** Sine::operator(): next sample and advanced phase at a frequency *)
  sine_gen : float -> SinePhase -> float * SinePhase;
  (** AD::operator(): next envelope value and advanced stage *)
  env_gen : float * float -> EnvStage -> float * EnvStage;
  (** AD::done() *)
  env_done : float * float -> EnvStage -> bool;
  (** AD::reset() and AD::release() *)
  env_reset : EnvStage -> EnvStage;
  env_release : EnvStage -> EnvStage;
  (** AD::levels(a, b, c) and AD::sustainPoint(i) *)
  env_levels : float -> float -> float -> EnvStage -> EnvStage;
  env_sustainPoint : Z -> EnvStage -> EnvStage;
  (** [lengths()[2 + j]] read, and written *)
  env_past_load : nat -> EnvStage -> float;
  env_past_store : nat -> float -> EnvStage -> EnvStage;
  (** powf of <cmath> *)
  powf : float -> float -> float;
  (** al::asciiToMIDI *)
  asciiToMIDI : Z -> Z;
  (** rnd::Random<> *)
  Random : Type;
  uniform : Random -> float * Random;
  uniformS : Random -> float * Random;
}.

Section Gamma.
Context `{FW : Framework}.

Record Sine := { freq : float; phase : SinePhase }.

(** the two lengths, attack and decay (the release of a note), and the
    rest of the envelope *)
Record AD := { lengths : float * float; stage : EnvStage }.

(** mSource.freq(v) *)
Definition Sine_set_freq (v : float) (s : Sine) : Sine :=
  {| freq := v; phase := phase s |}.

(** mSource() *)
Definition Sine_call (s : Sine) : float * Sine :=
  let '(y, p) := sine_gen (freq s) (phase s) in
  (y, {| freq := freq s; phase := p |}).

(** mEnvelope.lengths()[i] *)
Definition AD_length (i : nat) (e : AD) : float :=
  match i with
  | O => fst (lengths e)
  | S O => snd (lengths e)
  | S (S j) => env_past_load j (stage e)
  end.

(** mEnvelope.lengths()[i] = v *)
Definition AD_set_length (i : nat) (v : float) (e : AD) : AD :=
  match i with
  | O => {| lengths := (v, snd (lengths e)); stage := stage e |}
  | S O => {| lengths := (fst (lengths e), v); stage := stage e |}
  | S (S j) => {| lengths := lengths e; stage := env_past_store j v (stage e) |}
  end.

(** mEnvelope() *)
Definition AD_call (e : AD) : float * AD :=
  let '(y, st) := env_gen (lengths e) (stage e) in
  (y, {| lengths := lengths e; stage := st |}).

Definition AD_done (e : AD) : bool := env_done (lengths e) (stage e).

Definition AD_reset (e : AD) : AD :=
  {| lengths := lengths e; stage := env_reset (stage e) |}.

Definition AD_release (e : AD) : AD :=
  {| lengths := lengths e; stage := env_release (stage e) |}.

(** mEnvelope.lengths(a, b): the lengths of the two segments *)
Definition AD_lengths (a b : float) (e : AD) : AD :=
  AD_set_length 1 b (AD_set_length 0 a e).

(** mEnvelope.levels(a, b, c) *)
Definition AD_levels (a b c : float) (e : AD) : AD :=
  {| lengths := lengths e; stage := env_levels a b c (stage e) |}.

(** mEnvelope.sustainPoint(i) *)
Definition AD_sustainPoint (i : Z) (e : AD) : AD :=
  {| lengths := lengths e; stage := env_sustainPoint i (stage e) |}.

(** the envelope and the oscillator after [n] samples were drawn, and
    the sample drawn next *)
Definition AD_after (n : nat) (e : AD) : AD :=
  Nat.iter n (fun e => snd (AD_call e)) e.

Definition Sine_after (n : nat) (s : Sine) : Sine :=
  Nat.iter n (fun s => snd (Sine_call s)) s.

Definition AD_sample (n : nat) (e : AD) : float :=
  fst (AD_call (AD_after n e)).

Definition Sine_sample (n : nat) (s : Sine) : float :=
  fst (Sine_call (Sine_after n s)).
End Gamma.

(** ** The voice of the sequencer tutorial *)

Module Sequencer.
Section Voice.
Context `{FW : Framework}.

Record MyVoice := {
  mSource : Sine;
  mEnvelope : AD;
  mX : float;
  mY : float;
  mSize : float;
}.

(** MyVoice(), over the oscillator and the envelope as Gamma constructs
    them (the mesh is graphics only) *)
Definition MyVoice_new (source : Sine) (envelope : AD) : MyVoice :=
  {| mSource := source;
     mEnvelope :=
       AD_sustainPoint 1
         (AD_levels (F32.of_Z 0) (F32.of_Z 1) (F32.of_Z 0)
            (AD_lengths (F32.div (F32.of_Z 1) (F32.of_Z 10))
                        (F32.div (F32.of_Z 5) (F32.of_Z 10)) envelope));
     mX := F32.of_Z 0;
     mY := F32.of_Z 0;
     mSize := F32.of_double (F64.of_Z 1) |}.

Definition set (x y size frequency attackTime releaseTime : float)
    (v : MyVoice) : MyVoice :=
  {| mX := x;
     mY := y;
     mSize := size;
     mSource := Sine_set_freq frequency (mSource v);
     mEnvelope :=
       AD_set_length 2 releaseTime
         (AD_set_length 0 attackTime (mEnvelope v)) |}.

Definition setParamFields (pFields : cells) (numFields : Z)
    (v : MyVoice) : bool * MyVoice :=
  if negb (numFields =? 6) then (false, v)
  else (true, set (pFields 0%nat) (pFields 1%nat) (pFields 2%nat)
                  (pFields 3%nat) (pFields 4%nat) (pFields 5%nat) v).

Definition getParamFields (pFields : cells) (v : MyVoice) : Z * cells :=
  let p := store 0 (mX v) pFields in
  let p := store 1 (mY v) p in
  let p := store 2 (mSize v) p in
  let p := store 3 (freq (mSource v)) p in
  let p := store 4 (AD_length 0 (mEnvelope v)) p in
  let p := store 5 (AD_length 2 (mEnvelope v)) p in
  (6, p).

(** the six parameters of a voice that the p-fields stand for: x, y,
    size, frequency, attack time and release time, the last two being
    the two lengths of the envelope *)
Definition params (v : MyVoice) : list float :=
  [ mX v; mY v; mSize v; freq (mSource v);
    fst (lengths (mEnvelope v)); snd (lengths (mEnvelope v)) ].

Definition onTriggerOn (v : MyVoice) : MyVoice :=
  {| mSource := mSource v; mEnvelope := AD_reset (mEnvelope v);
     mX := mX v; mY := mY v; mSize := mSize v |}.

Definition onTriggerOff (v : MyVoice) : MyVoice :=
  {| mSource := mSource v; mEnvelope := AD_release (mEnvelope v);
     mX := mX v; mY := mY v; mSize := mSize v |}.
End Voice.
End Sequencer.

(** ** AudioIOData

    The block being rendered: its length in frames, the cursor that
    [io()] advances, output channel 0 and bus 0.  [while (io()) body]
    runs [body] once for every frame from the cursor to the end of the
    block. *)

Record AudioIOData := {
  framesPerBuffer : nat;
  frame : nat;
  outBuffer0 : list float;
  busBuffer0 : list float;
}.

(** io.frame(0), done by the voice pool before each voice renders *)
Definition io_rewind (io : AudioIOData) : AudioIOData :=
  {| framesPerBuffer := framesPerBuffer io; frame := 0%nat;
     outBuffer0 := outBuffer0 io; busBuffer0 := busBuffer0 io |}.

(** [while (io()) body], with the state [S] the body works on; the body
    is told the frame it is at *)
Fixpoint while_io {S : Type} (body : nat -> S -> S) (remaining cur : nat)
    (s : S) : S :=
  match remaining with
  | O => s
  | Datatypes.S r => while_io body r (Datatypes.S cur) (body cur s)
  end.

(** the literals 0.05, 0.1 and 2.0 of type [double], and 440.0f, 12.0f *)
Definition d_0_05 : double := F64.div (F64.of_Z 5) (F64.of_Z 100).
Definition d_0_1 : double := F64.div (F64.of_Z 1) (F64.of_Z 10).
Definition d_2_0 : double := F64.of_Z 2.
Definition f_440 : float := F32.of_Z 440.
Definition f_12 : float := F32.of_Z 12.

(** [mEnvelope() * mSource() * 0.05]: a [float] product, promoted and
    scaled in [double] *)
Definition scaled_sample (e s : float) : double :=
  F64.mul (F64.of_float (F32.mul e s)) d_0_05.

(** [440.0f * powf(2, (midiNote - 69)/12.0f)] *)
Definition midi_freq `{FW : Framework} (midiNote : Z) : float :=
  F32.mul f_440
    (powf (F32.of_Z 2) (F32.div (F32.of_Z (int_sub midiNote 69)) f_12)).

(** al::Parameter: name, group, current value and declared range *)
Record alParameter := {
  p_name : string;
  p_group : string;
  value : float;
  p_min : float;
  p_max : float;
}.

(** Parameter::operator=(float) *)
Definition alParameter_assign (x : float) (p : alParameter) : alParameter :=
  {| p_name := p_name p; p_group := p_group p; value := x;
     p_min := p_min p; p_max := p_max p |}.

(** al::Keyboard, as far as the callbacks look at it *)
Record Keyboard := {
  key : Z;
  alt : bool;
  isNumber : bool;
  keyAsNumber : Z;
}.

Module SequencerApp.
Import Sequencer.
Section App.
Context `{FW : Framework}.

(** calls a voice makes on its SynthVoice base *)
Inductive VoiceCall := Free.

Definition onProcess_frame (i : nat) (st : MyVoice * list float)
    : MyVoice * list float :=
  let '(v, out) := st in
  let '(e, env) := AD_call (mEnvelope v) in
  let '(s, src) := Sine_call (mSource v) in
  ({| mSource := src; mEnvelope := env;
      mX := mX v; mY := mY v; mSize := mSize v |},
   alter (fun o => F32.of_double (F64.add (F64.of_float o) (scaled_sample e s)))
         i out).

(** MyVoice::onProcess(AudioIOData &) *)
Definition onProcess (v : MyVoice) (io : AudioIOData)
    : MyVoice * AudioIOData * list VoiceCall :=
  let '(v1, out) :=
    while_io onProcess_frame (framesPerBuffer io - frame io) (frame io)
             (v, outBuffer0 io) in
  let io1 := {| framesPerBuffer := framesPerBuffer io;
                frame := Nat.max (frame io) (framesPerBuffer io);
                outBuffer0 := out; busBuffer0 := busBuffer0 io |} in
  (v1, io1, if AD_done (mEnvelope v1) then [Free] else []).

Record MyApp := {
  X : alParameter;
  Y : alParameter;
  Size : alParameter;
  AttackTime : alParameter;
  ReleaseTime : alParameter;
}.

(** the member initialisers of MyApp *)
Definition MyApp_new : MyApp :=
  {| X := {| p_name := "X"; p_group := "Position";
             value := F32.of_double (F64.of_Z 0);
             p_min := F32.of_Z (-1); p_max := F32.of_Z 1 |};
     Y := {| p_name := "Y"; p_group := "Position";
             value := F32.of_double (F64.of_Z 0);
             p_min := F32.of_Z (-1); p_max := F32.of_Z 1 |};
     Size := {| p_name := "Scale"; p_group := "Size";
                value := F32.of_double (F64.of_Z 1);
                p_min := F32.div (F32.of_Z 1) (F32.of_Z 10);
                p_max := F32.of_Z 3 |};
     AttackTime := {| p_name := "AttackTime"; p_group := "Sound";
                      value := F32.of_double d_0_1;
                      p_min := F32.div (F32.of_Z 1) (F32.of_Z 1000);
                      p_max := F32.of_Z 2 |};
     ReleaseTime := {| p_name := "ReleaseTime"; p_group := "Sound";
                       value := F32.of_double (F64.of_Z 1);
                       p_min := F32.div (F32.of_Z 1) (F32.of_Z 1000);
                       p_max := F32.of_Z 5 |} |}.

(** calls the application makes on the sequencer's PolySynth *)
Inductive SynthCall :=
| TriggerOn (voice : MyVoice) (offset : Z) (id : Z)
| TriggerOff (id : Z).

(** MyApp::onKeyDown; [voice] is what getVoice<MyVoice>() handed out *)
Definition onKeyDown (k : Keyboard) (app : MyApp) (voice : MyVoice)
    : list SynthCall :=
  let midiNote := asciiToMIDI (key k) in
  let freq := midi_freq midiNote in
  let voice := set (value (X app)) (value (Y app)) (value (Size app)) freq
                   (value (AttackTime app)) (value (ReleaseTime app)) voice in
  [TriggerOn voice 0 midiNote].

Definition onKeyUp (k : Keyboard) (app : MyApp) : list SynthCall :=
  let midiNote := asciiToMIDI (key k) in
  [TriggerOff midiNote].
End App.
End SequencerApp.

(** ** The spatialization tutorial *)

(** position of an al::Pose (its orientation is never touched here) *)
Record Pose := { pos_x : double; pos_y : double; pos_z : double }.

(** Pose::pos(x, y, z) *)
Definition Pose_pos (x y z : double) (p : Pose) : Pose :=
  {| pos_x := x; pos_y := y; pos_z := z |}.

Module Spatialization.
Section Voice.
Context `{FW : Framework}.

(** [userData] is the pointer the SynthVoice base keeps for the voice:
    the identity of the object it points at *)
Record MyVoice := {
  mSource : Sine;
  mEnvelope : AD;
  mPose : Pose;
  mSize : float;
  userData : nat;
}.

(** calls on the spatializer objects, told apart by identity, and on
    the SynthVoice base *)
Inductive Call :=
| Prepare (spatializer : nat)
| RenderBuffer (spatializer : nat) (pose : Pose) (samples : list float)
               (numFrames : nat)
| Finalize (spatializer : nat)
| Free.

Definition is_prepare (c : Call) : bool :=
  match c with Prepare _ => true | _ => false end.

Definition is_finalize (c : Call) : bool :=
  match c with Finalize _ => true | _ => false end.

Definition is_render (c : Call) : bool :=
  match c with RenderBuffer _ _ _ _ => true | _ => false end.

Definition is_free (c : Call) : bool :=
  match c with Free => true | _ => false end.

Definition onProcess_frame (i : nat) (st : MyVoice * list float)
    : MyVoice * list float :=
  let '(v, bus) := st in
  let '(e, env) := AD_call (mEnvelope v) in
  let '(s, src) := Sine_call (mSource v) in
  ({| mSource := src; mEnvelope := env; mPose := mPose v;
      mSize := mSize v; userData := userData v |},
   <[ i := F32.of_double (scaled_sample e s) ]> bus).

(** MyVoice::onProcess(AudioIOData &) *)
Definition onProcess (v : MyVoice) (io : AudioIOData)
    : MyVoice * AudioIOData * list Call :=
  let '(v1, bus) :=
    while_io onProcess_frame (framesPerBuffer io - frame io) (frame io)
             (v, busBuffer0 io) in
  let io1 := {| framesPerBuffer := framesPerBuffer io;
                frame := Nat.max (frame io) (framesPerBuffer io);
                outBuffer0 := outBuffer0 io; busBuffer0 := bus |} in
  (v1, io1,
   RenderBuffer (userData v1) (mPose v1) (busBuffer0 io1)
                (framesPerBuffer io1)
   :: (if AD_done (mEnvelope v1) then [Free] else [])).

(** what frame [i] of a block holds on bus 0 once the voice [v] has
    rendered it: [mEnvelope() * mSource() * 0.05] at the [i]-th draw *)
Definition bus_sample (v : MyVoice) (i : nat) : float :=
  F32.of_double
    (scaled_sample (AD_sample i (mEnvelope v)) (Sine_sample i (mSource v))).

(** MyVoice(), over the oscillator and the envelope as Gamma constructs
    them, the identity position of a fresh Pose and the user data the
    base class starts with *)
Definition MyVoice_new (source : Sine) (envelope : AD) (data : nat)
    : MyVoice :=
  {| mSource := source;
     mEnvelope :=
       AD_sustainPoint 1
         (AD_levels (F32.of_Z 0) (F32.of_Z 1) (F32.of_Z 0)
            (AD_lengths (F32.div (F32.of_Z 1) (F32.of_Z 10))
                        (F32.div (F32.of_Z 5) (F32.of_Z 10)) envelope));
     mPose := {| pos_x := F64.of_Z 0; pos_y := F64.of_Z 0;
                 pos_z := F64.of_Z 0 |};
     mSize := F32.of_double (F64.of_Z 1);
     userData := data |}.

Definition set (x y size frequency attackTime releaseTime : float)
    (v : MyVoice) : MyVoice :=
  {| mPose := Pose_pos (F64.of_float x) (F64.of_float y) (F64.of_Z 0)
                       (mPose v);
     mSize := size;
     mSource := Sine_set_freq frequency (mSource v);
     mEnvelope :=
       AD_set_length 2 releaseTime
         (AD_set_length 0 attackTime (mEnvelope v));
     userData := userData v |}.

Definition setParamFields (pFields : cells) (numFields : Z)
    (v : MyVoice) : bool * MyVoice :=
  if negb (numFields =? 6) then (false, v)
  else (true, set (pFields 0%nat) (pFields 1%nat) (pFields 2%nat)
                  (pFields 3%nat) (pFields 4%nat) (pFields 5%nat) v).

Definition getParamFields (pFields : cells) (v : MyVoice) : Z * cells :=
  let p := store 0 (F32.of_double (pos_x (mPose v))) pFields in
  let p := store 1 (F32.of_double (pos_y (mPose v))) p in
  let p := store 2 (mSize v) p in
  let p := store 3 (freq (mSource v)) p in
  let p := store 4 (AD_length 0 (mEnvelope v)) p in
  let p := store 5 (AD_length 2 (mEnvelope v)) p in
  (6, p).

(** the six parameters of a voice as the voice holds them: x and y are
    the doubles of the Pose, attack and release time the two lengths of
    the envelope *)
Definition params (v : MyVoice) : list spec_float :=
  [ pos_x (mPose v); pos_y (mPose v); mSize v; freq (mSource v);
    fst (lengths (mEnvelope v)); snd (lengths (mEnvelope v)) ].

(** the voice's position holds what [set] puts there: two promoted
    floats *)
Definition pose_of_floats (v : MyVoice) : Prop :=
  exists x y : float,
    F32.valid x = true /\ F32.valid y = true /\
    pos_x (mPose v) = F64.of_float x /\ pos_y (mPose v) = F64.of_float y.

Record MyApp := {
  X : alParameter;
  Y : alParameter;
  Size : alParameter;
  AttackTime : alParameter;
  ReleaseTime : alParameter;
  (** identity of the member [mSpatializer] *)
  mSpatializer : nat;
}.

(** the member initialisers of MyApp, with the identity its
    spatializer member has *)
Definition MyApp_new (spatializer : nat) : MyApp :=
  {| X := {| p_name := "X"; p_group := "Position";
             value := F32.of_double (F64.of_Z 0);
             p_min := F32.of_Z (-1); p_max := F32.of_Z 1 |};
     Y := {| p_name := "Y"; p_group := "Position";
             value := F32.of_double (F64.of_Z 0);
             p_min := F32.of_Z (-1); p_max := F32.of_Z 1 |};
     Size := {| p_name := "Scale"; p_group := "Size";
                value := F32.of_double (F64.of_Z 1);
                p_min := F32.div (F32.of_Z 1) (F32.of_Z 10);
                p_max := F32.of_Z 3 |};
     AttackTime := {| p_name := "AttackTime"; p_group := "Sound";
                      value := F32.of_double d_0_1;
                      p_min := F32.div (F32.of_Z 1) (F32.of_Z 1000);
                      p_max := F32.of_Z 2 |};
     ReleaseTime := {| p_name := "ReleaseTime"; p_group := "Sound";
                       value := F32.of_double (F64.of_Z 1);
                       p_min := F32.div (F32.of_Z 1) (F32.of_Z 1000);
                       p_max := F32.of_Z 5 |};
     mSpatializer := spatializer |}.

(** Modelled from the spec: the voice pool ("a unit of audio/visual
    generation ..., owned by a voice pool") is the framework's; its
    SynthSequencer::render(io) is taken to rewind the block and run
    onProcess once for each active voice, keeping the voices that did
    not free themselves. *)
Fixpoint render (voices : list MyVoice) (io : AudioIOData)
    : list MyVoice * AudioIOData * list Call :=
  match voices with
  | [] => ([], io, [])
  | v :: rest =>
      let '(v1, io1, cs) := onProcess v (io_rewind io) in
      let '(rest1, io2, cs') := render rest io1 in
      (if existsb is_free cs
       then rest1 else v1 :: rest1,
       io2, cs ++ cs')
  end.

(** MyApp::onSound *)
Definition onSound (app : MyApp) (voices : list MyVoice)
    (io : AudioIOData) : list MyVoice * AudioIOData * list Call :=
  let '(voices1, io1, cs) := render voices io in
  (voices1, io1,
   [Prepare (mSpatializer app)] ++ cs ++ [Finalize (mSpatializer app)]).

(** calls the application makes on the sequencer's PolySynth; the last
    argument of triggerOn is the user data handed to the voice *)
Inductive SynthCall :=
| TriggerOn (voice : MyVoice) (offset : Z) (id : Z) (data : nat)
| TriggerOff (id : Z).

(** MyApp::onKeyDown; [voice] is what getVoice<MyVoice>() handed out *)
Definition onKeyDown (k : Keyboard) (app : MyApp) (voice : MyVoice)
    : list SynthCall :=
  let midiNote := asciiToMIDI (key k) in
  let freq := midi_freq midiNote in
  let voice := set (value (X app)) (value (Y app)) (value (Size app)) freq
                   (value (AttackTime app)) (value (ReleaseTime app)) voice in
  [TriggerOn voice 0 midiNote (mSpatializer app)].

Definition onKeyUp (k : Keyboard) (app : MyApp) : list SynthCall :=
  let midiNote := asciiToMIDI (key k) in
  [TriggerOff midiNote].
End Voice.
End Spatialization.

(** ** The presets tutorial *)

(** std::to_string(int) *)
Definition to_string (n : Z) : string := pretty n.

(** std::endl *)
Definition endl : string := String (Ascii.ascii_of_nat 10) EmptyString.

Module Presets.
Section App.
Context `{FW : Framework}.

(** the three Parameter members of the application *)
Inductive ParamId := pX | pY | pSize.

(** al::PresetHandler, as far as the application configures it: its
    directory, the parameters registered with it and the morph time.
    The presets it has stored, and what a recall does to the registered
    parameters while it morphs them, are the handler's own and are not
    part of this record: storePreset and recallPreset appear as the
    calls the application makes. *)
Record PresetHandler := {
  rootDirectory : string;
  parameters : list ParamId;
  morphTime : float;
}.

(** presetHandler << p *)
Definition PresetHandler_register (p : ParamId) (h : PresetHandler)
    : PresetHandler :=
  {| rootDirectory := rootDirectory h;
     parameters := parameters h ++ [p];
     morphTime := morphTime h |}.

(** presetHandler.setMorphTime(t) *)
Definition setMorphTime (t : float) (h : PresetHandler) : PresetHandler :=
  {| rootDirectory := rootDirectory h;
     parameters := parameters h;
     morphTime := t |}.

Record MyApp := {
  X : alParameter;
  Y : alParameter;
  Size : alParameter;
  presetHandler : PresetHandler;
  randomGenerator : Random;
}.

(** the member initialisers of MyApp; the preset handler starts with
    no parameter and the morph time [t0] its constructor gives it *)
Definition MyApp_new (t0 : float) (g : Random) : MyApp :=
  {| X := {| p_name := "X"; p_group := "Position";
             value := F32.of_double (F64.of_Z 0);
             p_min := F32.of_Z (-1); p_max := F32.of_Z 1 |};
     Y := {| p_name := "Y"; p_group := "Position";
             value := F32.of_double (F64.of_Z 0);
             p_min := F32.of_Z (-1); p_max := F32.of_Z 1 |};
     Size := {| p_name := "Scale"; p_group := "Size";
                value := F32.of_double (F64.of_Z 1);
                p_min := F32.div (F32.of_Z 1) (F32.of_Z 10);
                p_max := F32.of_Z 3 |};
     presetHandler := {| rootDirectory := "sequencerPresets";
                         parameters := []; morphTime := t0 |};
     randomGenerator := g |}.

(** calls into the framework: graphics and GUI by name, the preset
    handler's store and recall, parameter assignments and std::cout *)
Inductive Call :=
| Graphics (op : string) (args : list float)
| Gui (op : string)
| StorePreset (index : Z) (name : string)
| RecallPreset (index : Z)
| Assign (p : ParamId) (x : float)
| Cout (s : string).

(** the declared ranges of X, Y and Size *)
Definition ranges (app : MyApp) : list (float * float) :=
  [ (p_min (X app), p_max (X app));
    (p_min (Y app), p_max (Y app));
    (p_min (Size app), p_max (Size app)) ].

Definition with_handler (h : PresetHandler) (app : MyApp) : MyApp :=
  {| X := X app; Y := Y app; Size := Size app;
     presetHandler := h; randomGenerator := randomGenerator app |}.

(** MyApp::onCreate *)
Definition onCreate (app : MyApp) : MyApp * list Call :=
  let h := presetHandler app in
  let h := PresetHandler_register pX h in
  let h := PresetHandler_register pY h in
  let h := PresetHandler_register pSize h in
  let h := setMorphTime (F32.of_double (F64.of_Z 2)) h in
  (with_handler h app,
   [ Graphics "nav.pos" [F32.of_Z 0; F32.of_Z 0; F32.of_Z 8];
     Graphics "addCone" [];
     Graphics "globalAmbient" [];
     Gui "X"; Gui "Y"; Gui "Size"; Gui "presetHandler"; Gui "init" ]).

(** MyApp::onDraw *)
Definition onDraw (app : MyApp) : list Call :=
  [ Graphics "clear" []; Graphics "lighting" []; Graphics "light" [];
    Graphics "pushMatrix" [];
    Graphics "translate" [value (X app); value (Y app); F32.of_Z 0];
    Graphics "scale" [value (Size app)];
    Graphics "draw" [];
    Graphics "popMatrix" [];
    Gui "onDraw" ].

(** [0.1 + randomGenerator.uniform() * 2.0], converted for operator= *)
Definition random_size (u : float) : float :=
  F32.of_double (F64.add d_0_1 (F64.mul (F64.of_float u) d_2_0)).

(** MyApp::onKeyDown: the calls it makes, and the application as the
    statements of the callback itself leave it *)
Definition onKeyDown (k : Keyboard) (app : MyApp) : MyApp * list Call :=
  let presetName := to_string (keyAsNumber k) in
  if alt k then
    if isNumber k then
      (app, [ StorePreset (keyAsNumber k) presetName;
              Cout ("Storing preset:" +:+ presetName +:+ endl) ])
    else (app, [])
  else
    if isNumber k then
      (app, [ RecallPreset (keyAsNumber k);
              Cout ("Recalling preset:" +:+ presetName +:+ endl) ])
    else if key k =? 32 then
      let '(x, g1) := uniformS (randomGenerator app) in
      let '(y, g2) := uniformS g1 in
      let '(u, g3) := uniform g2 in
      let size := random_size u in
      ({| X := alParameter_assign x (X app);
          Y := alParameter_assign y (Y app);
          Size := alParameter_assign size (Size app);
          presetHandler := presetHandler app;
          randomGenerator := g3 |},
       [ Assign pX x; Assign pY y; Assign pSize size ])
    else (app, []).

(** what the window hands to the application once it is created *)
Inductive Event := KeyDown (k : Keyboard) | Draw.

Definition step (ev : Event) (app : MyApp) : MyApp * list Call :=
  match ev with
  | KeyDown k => onKeyDown k app
  | Draw => (app, onDraw app)
  end.

(** the application's life: onCreate, then the events in turn *)
Fixpoint handle (evs : list Event) (app : MyApp) : MyApp * list Call :=
  match evs with
  | [] => (app, [])
  | ev :: rest =>
      let '(app1, cs) := step ev app in
      let '(app2, cs') := handle rest app1 in
      (app2, cs ++ cs')
  end.

Definition run (t0 : float) (g : Random) (evs : list Event)
    : MyApp * list Call :=
  let '(app1, cs) := onCreate (MyApp_new t0 g) in
  let '(app2, cs') := handle evs app1 in
  (app2, cs ++ cs').

(** a recall as the preset handler performs it: the index asked for,
    with the morph time and the parameters the handler holds then *)
Definition recall_of (app : MyApp) (c : Call)
    : option (Z * float * list ParamId) :=
  match c with
  | RecallPreset i =>
      Some (i, morphTime (presetHandler app),
            parameters (presetHandler app))
  | _ => None
  end.

Fixpoint recalls (evs : list Event) (app : MyApp)
    : list (Z * float * list ParamId) :=
  match evs with
  | [] => []
  | ev :: rest =>
      let '(app1, cs) := step ev app in
      omap (recall_of app) cs ++ recalls rest app1
  end.

Definition recall_index (c : Call) : option Z :=
  match c with
  | RecallPreset i => Some i
  | _ => None
  end.

Definition is_preset_call (c : Call) : bool :=
  match c with
  | StorePreset _ _ | RecallPreset _ => true
  | _ => false
  end.

(** a store (true) or a recall (false) of a preset, with its index *)
Definition preset_of_call (c : Call) : option (bool * Z) :=
  match c with
  | StorePreset i _ => Some (true, i)
  | RecallPreset i => Some (false, i)
  | _ => None
  end.

(** the store or recall an event asks for: number keys only *)
Definition preset_of_event (ev : Event) : option (bool * Z) :=
  match ev with
  | KeyDown k => if isNumber k then Some (alt k, keyAsNumber k) else None
  | Draw => None
  end.
End App.
End Presets.

(** ** Values of floats and rounding

    [finite_value] is the rational number a finite float stands for.

    Rounding is specified on integers.  A positive value [v] is carried
    as the integer [v * 2^K], for a shift [K] that no exponent at hand
    falls below; [target] is the exponent the format gives a value of
    that magnitude, and [rnd] rounds the value to a multiple of
    [2^target], to nearest with ties to an even mantissa. *)

Definition Qpow2 (e : Z) : Q :=
  match e with
  | Z0 => Qmake 1 1
  | Zpos p => inject_Z (Zpos (2 ^ p))
  | Zneg p => Qmake 1 (2 ^ p)
  end.

Definition finite_value (x : spec_float) : option Q :=
  match x with
  | S754_zero _ => Some (Qmake 0 1)
  | S754_finite s m e => Some (Qmult (inject_Z (cond_Zopp s (Zpos m))) (Qpow2 e))
  | _ => None
  end.

(** a finite float with a value in [[lo, hi]], or in [[lo, hi)] *)
Definition value_in (lo hi : Q) (x : spec_float) : Prop :=
  exists q, finite_value x = Some q /\ Qle lo q /\ Qle q hi.

Definition value_in_co (lo hi : Q) (x : spec_float) : Prop :=
  exists q, finite_value x = Some q /\ Qle lo q /\ Qlt q hi.

(** order of two finite floats by value *)
Definition float_le (x y : spec_float) : Prop :=
  exists qx qy,
    finite_value x = Some qx /\ finite_value y = Some qy /\ Qle qx qy.

Definition float_lt (x y : spec_float) : Prop :=
  exists qx qy,
    finite_value x = Some qx /\ finite_value y = Some qy /\ Qlt qx qy.

Definition rne_div (V T : Z) : Z :=
  match 2 * (V mod T) ?= T with
  | Lt => V / T
  | Eq => if Z.even (V / T) then V / T else V / T + 1
  | Gt => V / T + 1
  end.

Definition target (prec emax K V : Z) : Z :=
  Z.max (Z.log2 V + 1 - K - prec) (emin prec emax).

Definition rnd (prec emax K V : Z) : Z :=
  rne_div V (2 ^ (target prec emax K V + K)) * 2 ^ (target prec emax K V + K).

(** the shift used for binary32 and binary64 *)
Definition SHIFT : Z := 1200.

(** at that shift: the double 0.1, the largest float below 1, and the
    floats nearest to 0.1 and to 2.1 *)
Definition tenth64 : Z := 7205759403792794 * 2 ^ (SHIFT - 56).
Definition below_one32 : Z := (2 ^ 24 - 1) * 2 ^ (SHIFT - 24).
Definition tenth32 : Z := 13421773 * 2 ^ (SHIFT - 27).
Definition two_tenth32 : Z := 8808038 * 2 ^ (SHIFT - 22).

(** and the number 1, the double 0.05 and the float nearest to 0.05 *)
Definition one_scaled : Z := 2 ^ SHIFT.
Definition twentieth64 : Z := 7205759403792794 * 2 ^ (SHIFT - 57).
Definition twentieth32 : Z := 13421773 * 2 ^ (SHIFT - 28).

(** a zero, or a valid float of a format whose magnitude, at that
    shift, is at most [B] *)
Definition magnitude_le (prec emax B : Z) (x : spec_float) : Prop :=
  match x with
  | S754_zero _ => True
  | S754_finite _ m e =>
      bounded prec emax m e = true /\ Zpos m * 2 ^ (e + SHIFT) <= B
  | _ => False
  end.

(** ** A small framework to run the model on

    Made-up stand-ins for what the framework provides, used where a
    statement is tried on concrete values: a three-sample oscillator, an
    envelope that counts frames down and keeps, right after its two
    lengths, one more float, [powf] exact at exponent zero, a
    key map that sends 'n' to MIDI note 69, and a linear congruential
    generator. *)

Module Demo.
Definition lcg (g : Z) : Z := (g * 1103515245 + 12345) mod 2 ^ 31.

#[global] Instance framework : Framework := {|
  SinePhase := Z;
  EnvStage := nat * float;
  sine_gen := fun _ p => (F32.of_Z (p mod 3 - 1), p + 1);
  env_gen := fun _ st =>
    (match fst st with O => F32.of_Z 0 | _ => F32.of_Z 1 end,
     (Nat.pred (fst st), snd st));
  env_done := fun _ st => Nat.eqb (fst st) 0;
  env_reset := fun st => (4%nat, snd st);
  env_release := fun st => (1%nat, snd st);
  env_levels := fun _ _ _ st => st;
  env_sustainPoint := fun _ st => st;
  env_past_load := fun j st =>
    match j with O => snd st | _ => F32.of_Z 0 end;
  env_past_store := fun j x st =>
    match j with O => (fst st, x) | _ => st end;
  powf := fun x y => match y with S754_zero _ => F32.of_Z 1 | _ => x end;
  asciiToMIDI := fun k => k - 41;
  Random := Z;
  uniform := fun g =>
    (binary_normalize F32.prec F32.emax ((g / 2 ^ 7) mod 2 ^ 24) (-24) false,
     lcg g);
  uniformS := fun g =>
    (binary_normalize F32.prec F32.emax ((g / 2 ^ 6) mod 2 ^ 25 - 2 ^ 24)
                      (-24) false,
     lcg g);
|}.

Definition pFields : cells :=
  fun i => F32.of_Z (Z.of_nat i + 1).

Definition sine : Sine := {| freq := f_440; phase := 0 |}.
Definition envelope : AD :=
  {| lengths := (F32.of_Z 1, F32.of_Z 1);
     stage := (2%nat, F32.of_Z (-4)) |}.

Definition voice : Sequencer.MyVoice :=
  {| Sequencer.mSource := sine; Sequencer.mEnvelope := envelope;
     Sequencer.mX := F32.of_Z 0; Sequencer.mY := F32.of_Z 0;
     Sequencer.mSize := F32.of_Z 1 |}.

Definition spat_voice : Spatialization.MyVoice :=
  {| Spatialization.mSource := sine; Spatialization.mEnvelope := envelope;
     Spatialization.mPose :=
       {| pos_x := F64.of_float (F32.div (F32.of_Z 1) (F32.of_Z 3));
          pos_y := F64.of_float (F32.of_Z (-1));
          pos_z := F64.of_Z 0 |};
     Spatialization.mSize := F32.of_Z 1;
     Spatialization.userData := 7%nat |}.

Definition io : AudioIOData :=
  {| framesPerBuffer := 4; frame := 0;
     outBuffer0 := replicate 4 (F32.of_Z 1);
     busBuffer0 := replicate 4 (F32.of_Z 1) |}.

Definition presets_app : Presets.MyApp :=
  Presets.MyApp_new (F32.of_Z 0) (2024 : Z).

Definition seq_app : SequencerApp.MyApp := SequencerApp.MyApp_new.

Definition spat_app : Spatialization.MyApp := Spatialization.MyApp_new 7.

Definition key_n : Keyboard :=
  {| key := 110; alt := false; isNumber := false; keyAsNumber := 62 |}.
Definition key_7 : Keyboard :=
  {| key := 55; alt := false; isNumber := true; keyAsNumber := 7 |}.
Definition key_alt_7 : Keyboard :=
  {| key := 55; alt := true; isNumber := true; keyAsNumber := 7 |}.
Definition key_space : Keyboard :=
  {| key := 32; alt := false; isNumber := false; keyAsNumber := -16 |}.
End Demo.

(** * Properties *)

(** ** Floating point

    [binary_round] and [binary_round_aux] of the Standard Library are
    related to [rnd]: the float they return has the scaled value [rnd]
    gives (with zero and infinity where [rnd] leaves the range), [rnd]
    is monotone and fixes the values the format holds. *)

(** the number of binary digits of a mantissa *)
Lemma digits2_log2 (p : positive) :
  Zpos (digits2_pos p) = Z.log2 (Zpos p) + 1.
Proof.
  assert (Hsize : forall q, digits2_pos q = Pos.size q).
  { induction q as [q IH | q IH |]; cbn; now rewrite ?IH. }
  destruct p as [p | p |]; cbn; rewrite ?Hsize; lia.
Qed.

Lemma digits2_bounds (p : positive) :
  2 ^ (Zpos (digits2_pos p) - 1) <= Zpos p < 2 ^ Zpos (digits2_pos p).
Proof.
  rewrite digits2_log2.
  replace (Z.log2 (Zpos p) + 1 - 1) with (Z.log2 (Zpos p)) by lia.
  apply Z.log2_spec. lia.
Qed.

Lemma digits2_unique (p : positive) (d : Z) :
  2 ^ (d - 1) <= Zpos p < 2 ^ d -> Zpos (digits2_pos p) = d.
Proof.
  intros H. rewrite digits2_log2.
  assert (0 < d).
  { destruct (Z.lt_ge_cases 0 d) as [Hd | Hd]; [exact Hd |].
    exfalso. destruct (Z.eq_dec d 0) as [-> | Hne].
    - cbn in H. lia.
    - rewrite (Z.pow_neg_r 2 d) in H by lia. lia. }
  rewrite (Z.log2_unique (Zpos p) (d - 1)); try lia.
  replace (Z.succ (d - 1)) with d by lia. exact H.
Qed.

Lemma iter_pos_nat {A : Type} (f : A -> A) (p : positive) :
  forall x, SpecFloat.iter_pos f p x = Nat.iter (Pos.to_nat p) f x.
Proof.
  induction p as [p IH | p IH |]; intros x; cbn [SpecFloat.iter_pos].
  - rewrite !IH, Pos2Nat.inj_xI, <- Nat.iter_add.
    replace (S (2 * Pos.to_nat p)) with (S (Pos.to_nat p + Pos.to_nat p))%nat by lia.
    now rewrite Nat.iter_succ_r.
  - rewrite !IH, Pos2Nat.inj_xO, <- Nat.iter_add.
    f_equal. lia.
  - reflexivity.
Qed.

Lemma iter_xO_pow2 (m : positive) (n : nat) :
  Zpos (Nat.iter n xO m) = Zpos m * 2 ^ Z.of_nat n.
Proof.
  induction n as [| n IH].
  - cbn. lia.
  - rewrite Nat2Z.inj_succ, Z.pow_succ_r by lia.
    rewrite Nat.iter_succ, Pos2Z.inj_xO, IH. lia.
Qed.

Lemma pos_iter_xO_pow2 (m d : positive) :
  Zpos (Pos.iter xO m d) = Zpos m * 2 ^ Zpos d.
Proof.
  rewrite Pos2Nat.inj_iter.
  change (nat_rect (fun _ => positive) m (fun _ => xO) (Pos.to_nat d))
    with (Nat.iter (Pos.to_nat d) xO m).
  rewrite iter_xO_pow2. now rewrite positive_nat_Z.
Qed.

(** shifting right by [n] bits, from an exact record *)
Lemma shr_1_m (r : shr_record) :
  0 <= shr_m r -> shr_m (shr_1 r) = shr_m r / 2.
Proof.
  destruct r as [m b s]. cbn [shr_m]. intros Hm.
  destruct m as [| [p | p |] | p]; cbn [shr_1 shr_m]; try lia;
    try reflexivity.
  - apply Z.div_unique with (r := 1); lia.
  - apply Z.div_unique with (r := 0); lia.
Qed.

Lemma shr_1_r (r : shr_record) :
  0 <= shr_m r -> shr_r (shr_1 r) = Z.odd (shr_m r).
Proof.
  destruct r as [m b s]. cbn [shr_m]. intros Hm.
  destruct m as [| [p | p |] | p]; cbn; try reflexivity; lia.
Qed.

Lemma shr_1_s (r : shr_record) :
  shr_s (shr_1 r) = shr_r r || shr_s r.
Proof.
  destruct r as [m b s].
  destruct m as [| [p | p |] | [p | p |]]; reflexivity.
Qed.

(** [n] right shifts of an exact mantissa: the quotient, the bit shifted
    out last and whether anything was shifted out before it *)
Lemma shr_iter (m : Z) (n : nat) :
  0 <= m ->
  let r := Nat.iter n shr_1 {| shr_m := m; shr_r := false; shr_s := false |} in
  shr_m r = m / 2 ^ Z.of_nat n /\
  shr_r r = Z.odd (2 * m / 2 ^ Z.of_nat n) /\
  shr_s r = negb (((2 * m) mod 2 ^ Z.of_nat n) =? 0).
Proof.
  intros Hm. induction n as [| n IH].
  - cbn [Nat.iter nat_rect shr_m shr_r shr_s Z.of_nat].
    change (2 ^ 0) with 1.
    rewrite !Z.div_1_r, Z.mod_1_r, Z.odd_mul. repeat split.
  - cbn zeta in *. rewrite Nat.iter_succ.
    set (r := Nat.iter n shr_1 _) in *.
    destruct IH as (IHm & IHr & IHs).
    assert (Hp : 0 < 2 ^ Z.of_nat n) by (apply Z.pow_pos_nonneg; lia).
    assert (Hrm : 0 <= shr_m r).
    { rewrite IHm. apply Z.div_pos; lia. }
    rewrite Nat2Z.inj_succ, Z.pow_succ_r by lia.
    rewrite shr_1_m, shr_1_r, shr_1_s by exact Hrm.
    rewrite IHm, IHr, IHs.
    split; [| split].
    + rewrite Z.div_div by lia. f_equal. lia.
    + f_equal. rewrite Z.div_mul_cancel_l by lia. reflexivity.
    + rewrite (Z.mul_comm 2 (2 ^ Z.of_nat n)).
      rewrite Z.rem_mul_r by lia.
      set (lo := (2 * m) mod 2 ^ Z.of_nat n).
      set (y := 2 * m / 2 ^ Z.of_nat n).
      assert (Hlo : 0 <= lo < 2 ^ Z.of_nat n) by (apply Z.mod_pos_bound; lia).
      rewrite (Zodd_mod y).
      assert (Hy : 0 <= y mod 2 < 2) by (apply Z.mod_pos_bound; lia).
      destruct (Z.eqb_spec (y mod 2) 1) as [E1 | E1];
        destruct (Z.eqb_spec lo 0) as [E0 | E0];
        destruct (Z.eqb_spec (lo + 2 ^ Z.of_nat n * (y mod 2)) 0) as [E | E];
        cbn; try reflexivity; exfalso; nia.
Qed.

(** rounding the shifted record to nearest even is [rne_div] *)
Lemma shr_iter_rne (m : Z) (n : nat) :
  0 <= m ->
  let r := Nat.iter n shr_1 {| shr_m := m; shr_r := false; shr_s := false |} in
  round_nearest_even (shr_m r) (loc_of_shr_record r) =
  rne_div m (2 ^ Z.of_nat n).
Proof.
  intros Hm r.
  destruct (shr_iter m n Hm) as (Hq & Hr & Hs). fold r in Hq, Hr, Hs.
  assert (Hp : 0 < 2 ^ Z.of_nat n) by (apply Z.pow_pos_nonneg; lia).
  unfold rne_div.
  assert (H2 : 2 * (m mod 2 ^ Z.of_nat n) =
               (2 * m) mod 2 ^ Z.of_nat n +
               2 ^ Z.of_nat n * ((2 * m / 2 ^ Z.of_nat n) mod 2)).
  { rewrite <- Z.mul_mod_distr_l by lia.
    rewrite (Z.mul_comm 2 (2 ^ Z.of_nat n)).
    now rewrite Z.rem_mul_r by lia. }
  set (lo := (2 * m) mod 2 ^ Z.of_nat n) in *.
  set (y := 2 * m / 2 ^ Z.of_nat n) in *.
  assert (Hlo : 0 <= lo < 2 ^ Z.of_nat n) by (apply Z.mod_pos_bound; lia).
  assert (Hy : 0 <= y mod 2 < 2) by (apply Z.mod_pos_bound; lia).
  rewrite (Zodd_mod y) in Hr.
  destruct r as [q b s]. cbn [shr_m shr_r shr_s] in *. subst q b s.
  rewrite H2.
  destruct (Z.eqb_spec (y mod 2) 1) as [E1 | E1];
    destruct (Z.eqb_spec lo 0) as [E0 | E0]; cbn [negb loc_of_shr_record
      round_nearest_even].
  - rewrite E1, E0.
    replace (0 + 2 ^ Z.of_nat n * 1) with (2 ^ Z.of_nat n) by lia.
    now rewrite Z.compare_refl.
  - replace (lo + 2 ^ Z.of_nat n * (y mod 2) ?= 2 ^ Z.of_nat n) with Gt;
      [reflexivity |].
    symmetry. apply Z.compare_gt_iff. nia.
  - replace (lo + 2 ^ Z.of_nat n * (y mod 2) ?= 2 ^ Z.of_nat n) with Lt;
      [reflexivity |].
    symmetry. apply Z.compare_lt_iff. nia.
  - replace (lo + 2 ^ Z.of_nat n * (y mod 2) ?= 2 ^ Z.of_nat n) with Lt;
      [reflexivity |].
    symmetry. apply Z.compare_lt_iff. nia.
Qed.

Lemma rne_div_bounds (V T : Z) :
  V / T <= rne_div V T <= V / T + 1.
Proof.
  unfold rne_div.
  destruct (2 * (V mod T) ?= T); [destruct (Z.even (V / T)) | |]; lia.
Qed.

Lemma rne_div_exact (V T : Z) :
  0 < T -> V mod T = 0 -> rne_div V T = V / T.
Proof.
  intros HT H0. unfold rne_div. rewrite H0.
  assert (E : (2 * 0 ?= T) = Lt) by (apply Z.compare_lt_iff; lia).
  now rewrite E.
Qed.

Lemma rne_div_mono (V1 V2 T : Z) :
  0 < T -> V1 <= V2 -> rne_div V1 T <= rne_div V2 T.
Proof.
  intros HT HV.
  pose proof (Z.div_le_mono V1 V2 T HT HV) as Hq.
  pose proof (rne_div_bounds V1 T) as H1.
  pose proof (rne_div_bounds V2 T) as H2.
  destruct (Z.eq_dec (V1 / T) (V2 / T)) as [E | NE]; [| lia].
  pose proof (Z.mod_eq V1 T ltac:(lia)) as M1.
  pose proof (Z.mod_eq V2 T ltac:(lia)) as M2.
  unfold rne_div in *. rewrite <- E in *.
  destruct (Z.compare_spec (2 * (V1 mod T)) T);
    destruct (Z.compare_spec (2 * (V2 mod T)) T);
    destruct (Z.even (V1 / T)); lia.
Qed.

Lemma rne_div_scale (V T c : Z) :
  0 < T -> 0 < c -> rne_div (V * c) (T * c) = rne_div V T.
Proof.
  intros HT Hc. unfold rne_div.
  rewrite Z.div_mul_cancel_r by lia.
  rewrite Z.mul_mod_distr_r by lia.
  replace (2 * (V mod T * c)) with (2 * (V mod T) * c) by lia.
  rewrite <- (Zmult_compare_compat_r _ _ c) by lia.
  reflexivity.
Qed.

Section Round.
Variables prec emax : Z.
Hypothesis Hprec : 0 < prec.
Hypothesis Hemax : prec < emax.


Lemma fexp_ge_emin (x : Z) : emin prec emax <= fexp prec emax x.
Proof. unfold fexp, emin. lia. Qed.

Lemma shr_exact_spec (m : Z) (e : Z) :
  0 <= m ->
  let t := fexp prec emax (Zdigits2 m + e) in
  shr_fexp prec emax m e loc_Exact =
  if 0 <? t - e
  then (Nat.iter (Z.to_nat (t - e)) shr_1
          {| shr_m := m; shr_r := false; shr_s := false |}, t)
  else ({| shr_m := m; shr_r := false; shr_s := false |}, e).
Proof.
  intros Hm t. unfold shr_fexp. fold t. cbn [shr_record_of_loc].
  unfold shr.
  destruct (t - e) as [| p | p] eqn:E; cbn [Z.ltb Z.compare]; try reflexivity.
  rewrite iter_pos_nat. f_equal. lia.
Qed.

(** what [binary_round_aux] makes of an exact positive mantissa whose
    exponent is not above the target exponent *)
Lemma round_aux_cases (sx : bool) (m : positive) (e : Z) :
  let t := fexp prec emax (Zpos (digits2_pos m) + e) in
  e <= t ->
  let q := rne_div (Zpos m) (2 ^ (t - e)) in
  0 <= q <= 2 ^ prec /\
  binary_round_aux prec emax sx (Zpos m) e loc_Exact =
  match q with
  | Z0 => S754_zero sx
  | Zpos p =>
      if q =? 2 ^ prec
      then if t + 1 <=? emax - prec
           then S754_finite sx (Z.to_pos (2 ^ (prec - 1))) (t + 1)
           else S754_infinity sx
      else if t <=? emax - prec
           then S754_finite sx p t
           else S754_infinity sx
  | Zneg _ => S754_nan
  end.
Proof.
  intros t Het q.
  pose proof (digits2_bounds m) as Hd.
  set (d := Zpos (digits2_pos m)) in *.
  assert (Ht : emin prec emax <= t) by apply fexp_ge_emin.
  assert (Htd : d + e - prec <= t) by (unfold t, fexp; lia).
  assert (Hpow : 0 < 2 ^ (t - e)) by (apply Z.pow_pos_nonneg; lia).
  assert (Hpp : 0 < 2 ^ prec) by (apply Z.pow_pos_nonneg; lia).
  assert (Hq0 : 0 <= Zpos m / 2 ^ (t - e)) by (apply Z.div_pos; lia).
  assert (Hq1 : Zpos m / 2 ^ (t - e) < 2 ^ prec).
  { apply Z.div_lt_upper_bound; [lia |].
    rewrite <- Z.pow_add_r by lia.
    apply Z.lt_le_trans with (2 ^ d); [lia |].
    apply Z.pow_le_mono_r; lia. }
  pose proof (rne_div_bounds (Zpos m) (2 ^ (t - e))) as Hqb. fold q in Hqb.
  split; [lia |].
  unfold binary_round_aux.
  rewrite shr_exact_spec by lia. cbn [Zdigits2]. fold d t.
  (* the first shift and the rounding give [q] at exponent [t] *)
  assert (Hfirst :
    (let '(mrs', e') :=
       if 0 <? t - e
       then (Nat.iter (Z.to_nat (t - e)) shr_1
               {| shr_m := Zpos m; shr_r := false; shr_s := false |}, t)
       else ({| shr_m := Zpos m; shr_r := false; shr_s := false |}, e) in
     (round_nearest_even (shr_m mrs') (loc_of_shr_record mrs'), e')) = (q, t)).
  { destruct (Z.ltb_spec 0 (t - e)) as [Hlt | Hge].
    - rewrite shr_iter_rne by lia. rewrite Z2Nat.id by lia. reflexivity.
    - assert (t = e) by lia. cbn [shr_m loc_of_shr_record round_nearest_even].
      f_equal; [| lia]. unfold q.
      replace (t - e) with 0 by lia. change (2 ^ 0) with 1.
      rewrite rne_div_exact by (rewrite ?Z.mod_1_r; lia).
      now rewrite Z.div_1_r. }
  destruct (if 0 <? t - e then _ else _) as [mrs' e'].
  injection Hfirst as Hq He. rewrite Hq, He. clear Hq He mrs' e'.
  destruct q as [| p | p] eqn:Eq; [| | lia].
  - (* rounded to zero *)
    rewrite shr_exact_spec by lia. cbn [Zdigits2].
    replace (0 <? fexp prec emax (0 + t) - t) with false; [reflexivity |].
    symmetry. apply Z.ltb_ge. unfold fexp, emin in *. lia.
  - rewrite shr_exact_spec by lia. cbn [Zdigits2].
    pose proof (digits2_bounds p) as Hdp.
    set (d' := Zpos (digits2_pos p)) in *.
    destruct (Z.eqb_spec (Zpos p) (2 ^ prec)) as [Etop | Etop].
    + (* the mantissa overflowed to 2^prec: one more exact shift *)
      assert (Hd' : d' = prec + 1).
      { apply digits2_unique. rewrite Etop.
        replace (prec + 1 - 1) with prec by lia.
        rewrite Z.pow_add_r by lia. lia. }
      assert (Hf : fexp prec emax (d' + t) = t + 1).
      { unfold fexp, emin in *. lia. }
      rewrite Hf. replace (t + 1 - t) with 1 by lia.
      cbn [Z.ltb Z.compare Z.to_nat Pos.to_nat Pos.iter_op Nat.iter nat_rect].
      cbn [shr_1 shr_m].
      rewrite Etop.
      assert (Hhalf : 2 ^ prec = 2 * 2 ^ (prec - 1)).
      { rewrite <- Z.pow_succ_r by lia. f_equal. lia. }
      assert (Hpos : 0 < 2 ^ (prec - 1)) by (apply Z.pow_pos_nonneg; lia).
      destruct (2 ^ (prec - 1)) as [| h | h] eqn:Eh; try lia.
      rewrite Hhalf. cbn [Z.mul Pos.mul shr_1 shr_m Z.to_pos]. reflexivity.
    + assert (Hd' : d' <= prec).
      { destruct (Z.le_gt_cases d' prec) as [H | H]; [exact H |].
        exfalso.
        assert (2 ^ prec <= 2 ^ (d' - 1)) by (apply Z.pow_le_mono_r; lia).
        lia. }
      replace (0 <? fexp prec emax (d' + t) - t) with false; [reflexivity |].
      symmetry. apply Z.ltb_ge. unfold fexp, emin in *. lia.
Qed.

Variable K : Z.
Hypothesis HK : - K <= emin prec emax.

Lemma target_ge_emin (V : Z) : emin prec emax <= target prec emax K V.
Proof. unfold target. lia. Qed.

Lemma target_mono (V1 V2 : Z) :
  V1 <= V2 -> target prec emax K V1 <= target prec emax K V2.
Proof.
  intros H. unfold target.
  pose proof (Z.log2_le_mono V1 V2 H). lia.
Qed.

Lemma target_of_float (m : positive) (e : Z) :
  - K <= e ->
  target prec emax K (Zpos m * 2 ^ (e + K)) =
  fexp prec emax (Zpos (digits2_pos m) + e).
Proof.
  intros He. unfold target, fexp.
  rewrite Z.log2_mul_pow2 by lia.
  rewrite digits2_log2. f_equal. lia.
Qed.

(** rounding is monotone *)
Lemma rnd_mono (V1 V2 : Z) :
  0 < V1 -> V1 <= V2 -> rnd prec emax K V1 <= rnd prec emax K V2.
Proof.
  intros H1 H12. unfold rnd.
  pose proof (target_mono V1 V2 H12) as Ht.
  pose proof (target_ge_emin V1) as Ht1.
  set (t1 := target prec emax K V1) in *.
  set (t2 := target prec emax K V2) in *.
  assert (HT1 : 0 < 2 ^ (t1 + K)) by (apply Z.pow_pos_nonneg; lia).
  assert (HT2 : 0 < 2 ^ (t2 + K)) by (apply Z.pow_pos_nonneg; lia).
  destruct (Z.eq_dec t1 t2) as [E | NE].
  - rewrite <- E. apply Z.mul_le_mono_nonneg_r; [lia |].
    apply rne_div_mono; lia.
  - assert (Hlt : t1 < t2) by lia.
    assert (Ht2 : t2 = Z.log2 V2 + 1 - K - prec) by (unfold t2, target in *; lia).
    assert (Hl1 : Z.log2 V1 + 1 - K - prec <= t1) by (unfold t1, target; lia).
    set (beta := 2 ^ (prec - 1 + t2 + K)).
    assert (Hb2 : beta <= V2).
    { pose proof (Z.log2_spec V2 ltac:(lia)) as [Hlo _].
      unfold beta. replace (prec - 1 + t2 + K) with (Z.log2 V2) by lia.
      exact Hlo. }
    assert (Hb1 : V1 < beta).
    { pose proof (Z.log2_spec V1 H1) as [_ Hhi].
      apply Z.lt_le_trans with (2 ^ Z.succ (Z.log2 V1)); [exact Hhi |].
      unfold beta. apply Z.pow_le_mono_r; lia. }
    assert (Hbeta2 : beta = 2 ^ (prec - 1) * 2 ^ (t2 + K)).
    { unfold beta. rewrite <- Z.pow_add_r by lia. f_equal. lia. }
    assert (Hbeta1 : beta = 2 ^ (prec - 1 + t2 - t1) * 2 ^ (t1 + K)).
    { unfold beta. rewrite <- Z.pow_add_r by lia. f_equal. lia. }
    apply Z.le_trans with beta.
    + pose proof (rne_div_bounds V1 (2 ^ (t1 + K))) as [_ Hup].
      assert (V1 / 2 ^ (t1 + K) < 2 ^ (prec - 1 + t2 - t1)).
      { apply Z.div_lt_upper_bound; [lia |]. lia. }
      rewrite Hbeta1. apply Z.mul_le_mono_nonneg_r; lia.
    + pose proof (rne_div_bounds V2 (2 ^ (t2 + K))) as [Hlo _].
      assert (2 ^ (prec - 1) <= V2 / 2 ^ (t2 + K)).
      { apply Z.div_le_lower_bound; [lia |]. lia. }
      rewrite Hbeta2. apply Z.mul_le_mono_nonneg_r; lia.
Qed.

(** a value the format holds is not changed by rounding *)
Lemma rnd_exact (a ea : Z) :
  0 < a < 2 ^ prec -> emin prec emax <= ea ->
  rnd prec emax K (a * 2 ^ (ea + K)) = a * 2 ^ (ea + K).
Proof.
  intros Ha Hea. unfold rnd.
  assert (Ht : target prec emax K (a * 2 ^ (ea + K)) <= ea).
  { unfold target. rewrite Z.log2_mul_pow2 by lia.
    assert (Z.log2 a < prec) by (apply Z.log2_lt_pow2; lia). lia. }
  pose proof (target_ge_emin (a * 2 ^ (ea + K))) as Hge.
  set (t := target prec emax K (a * 2 ^ (ea + K))) in *.
  assert (HT : 0 < 2 ^ (t + K)) by (apply Z.pow_pos_nonneg; lia).
  assert (Hsplit : a * 2 ^ (ea + K) = a * 2 ^ (ea - t) * 2 ^ (t + K)).
  { rewrite <- Z.mul_assoc, <- Z.pow_add_r by lia. do 2 f_equal. lia. }
  rewrite rne_div_exact; [| lia |].
  - rewrite Hsplit at 1. rewrite Z.div_mul by lia. lia.
  - rewrite Hsplit. apply Z.mod_mul. lia.
Qed.

Lemma canonical_intro (p : positive) (t : Z) :
  emin prec emax <= t ->
  Zpos p < 2 ^ prec ->
  (emin prec emax < t -> 2 ^ (prec - 1) <= Zpos p) ->
  canonical_mantissa prec emax p t = true.
Proof.
  intros Ht Hhi Hlo. unfold canonical_mantissa. apply Z.eqb_eq.
  pose proof (digits2_bounds p) as Hd.
  set (d := Zpos (digits2_pos p)) in *.
  assert (Hd1 : d <= prec).
  { destruct (Z.le_gt_cases d prec) as [H | H]; [exact H |].
    exfalso.
    assert (2 ^ prec <= 2 ^ (d - 1)) by (apply Z.pow_le_mono_r; lia).
    lia. }
  unfold fexp.
  destruct (Z.eq_dec t (emin prec emax)) as [E | NE]; [lia |].
  assert (Hd2 : prec <= d).
  { destruct (Z.le_gt_cases prec d) as [H | H]; [exact H |].
    exfalso. specialize (Hlo ltac:(lia)).
    assert (2 ^ d <= 2 ^ (prec - 1)) by (apply Z.pow_le_mono_r; lia).
    lia. }
  lia.
Qed.

(** [binary_round_aux] on an exact mantissa computes [rnd] *)
Lemma round_aux_rnd (sx : bool) (m : positive) (e : Z) :
  - K <= e ->
  e <= fexp prec emax (Zpos (digits2_pos m) + e) ->
  match binary_round_aux prec emax sx (Zpos m) e loc_Exact with
  | S754_finite s m' e' =>
      s = sx /\ bounded prec emax m' e' = true /\ - K <= e' /\
      Zpos m' * 2 ^ (e' + K) = rnd prec emax K (Zpos m * 2 ^ (e + K))
  | S754_zero s => s = sx /\ rnd prec emax K (Zpos m * 2 ^ (e + K)) = 0
  | S754_infinity s =>
      s = sx /\ 2 ^ (emax + K) <= rnd prec emax K (Zpos m * 2 ^ (e + K))
  | S754_nan => False
  end.
Proof.
  intros He Hal.
  destruct (round_aux_cases sx m e Hal) as [Hq Hres].
  rewrite Hres. clear Hres.
  pose proof (target_of_float m e He) as Htgt.
  unfold rnd. rewrite Htgt.
  set (t := fexp prec emax (Zpos (digits2_pos m) + e)) in *.
  assert (Ht : emin prec emax <= t) by apply fexp_ge_emin.
  assert (Hc : 0 < 2 ^ (e + K)) by (apply Z.pow_pos_nonneg; lia).
  assert (Hs : 0 < 2 ^ (t - e)) by (apply Z.pow_pos_nonneg; lia).
  assert (HT : 2 ^ (t + K) = 2 ^ (t - e) * 2 ^ (e + K)).
  { rewrite <- Z.pow_add_r by lia. f_equal. lia. }
  assert (HTpos : 0 < 2 ^ (t + K)) by lia.
  rewrite HT, rne_div_scale by lia. rewrite <- HT.
  assert (Hpp : 0 < 2 ^ prec) by (apply Z.pow_pos_nonneg; lia).
  assert (Hhalf : 2 ^ prec = 2 * 2 ^ (prec - 1)).
  { rewrite <- Z.pow_succ_r by lia. f_equal. lia. }
  (* a mantissa of full width whenever the exponent is above emin *)
  assert (Hnorm : emin prec emax < t ->
                  2 ^ (prec - 1) <= rne_div (Zpos m) (2 ^ (t - e))).
  { intros Hn.
    pose proof (rne_div_bounds (Zpos m) (2 ^ (t - e))) as [Hlo _].
    apply Z.le_trans with (Zpos m / 2 ^ (t - e)); [| exact Hlo].
    apply Z.div_le_lower_bound; [lia |].
    rewrite <- Z.pow_add_r by lia.
    pose proof (digits2_bounds m) as [Hd _].
    assert (t = Zpos (digits2_pos m) + e - prec)
      by (unfold t, fexp in *; lia).
    apply Z.le_trans with (2 ^ (Zpos (digits2_pos m) - 1)); [| exact Hd].
    apply Z.pow_le_mono_r; lia. }
  set (q := rne_div (Zpos m) (2 ^ (t - e))) in *.
  destruct q as [| p | p] eqn:Eq; [| | lia].
  - split; [reflexivity | lia].
  - destruct (Z.eqb_spec (Zpos p) (2 ^ prec)) as [Etop | Etop].
    + destruct (Z.leb_spec (t + 1) (emax - prec)) as [Hfit | Hover].
      * assert (Hpos : 0 < 2 ^ (prec - 1)) by (apply Z.pow_pos_nonneg; lia).
        split; [reflexivity |]. split; [| split; [lia |]].
        -- unfold bounded. apply andb_true_intro. split; [| now apply Z.leb_le].
           apply canonical_intro; rewrite ?Z2Pos.id by lia; lia.
        -- rewrite Z2Pos.id by lia. rewrite Etop, Hhalf.
           replace (t + 1 + K) with (Z.succ (t + K)) by lia.
           rewrite Z.pow_succ_r by lia. lia.
      * split; [reflexivity |]. rewrite Etop, <- Z.pow_add_r by lia.
        apply Z.pow_le_mono_r; lia.
    + destruct (Z.leb_spec t (emax - prec)) as [Hfit | Hover].
      * split; [reflexivity |]. split; [| split; [lia | reflexivity]].
        unfold bounded. apply andb_true_intro. split; [| now apply Z.leb_le].
        apply canonical_intro; lia.
      * split; [reflexivity |].
        assert (emin prec emax < t) by (unfold emin in *; lia).
        specialize (Hnorm ltac:(lia)).
        apply Z.le_trans with (2 ^ (prec - 1) * 2 ^ (t + K)).
        -- rewrite <- Z.pow_add_r by lia. apply Z.pow_le_mono_r; lia.
        -- apply Z.mul_le_mono_nonneg_r; lia.
Qed.

(** and so does [binary_round], which aligns the mantissa first *)
Lemma binary_round_rnd (sx : bool) (mx : positive) (ex : Z) :
  - K <= ex ->
  match binary_round prec emax sx mx ex with
  | S754_finite s m' e' =>
      s = sx /\ bounded prec emax m' e' = true /\ - K <= e' /\
      Zpos m' * 2 ^ (e' + K) = rnd prec emax K (Zpos mx * 2 ^ (ex + K))
  | S754_zero s => s = sx /\ rnd prec emax K (Zpos mx * 2 ^ (ex + K)) = 0
  | S754_infinity s =>
      s = sx /\ 2 ^ (emax + K) <= rnd prec emax K (Zpos mx * 2 ^ (ex + K))
  | S754_nan => False
  end.
Proof.
  intros He. unfold binary_round, shl_align.
  set (t := fexp prec emax (Zpos (digits2_pos mx) + ex)).
  assert (Ht : emin prec emax <= t) by apply fexp_ge_emin.
  destruct (t - ex) as [| d | d] eqn:Ed.
  - apply round_aux_rnd; [exact He | fold t; lia].
  - apply round_aux_rnd; [exact He | fold t; lia].
  - assert (Hd : Zpos d = ex - t) by lia.
    pose proof (pos_iter_xO_pow2 mx d) as Hmz.
    set (mz := Pos.iter xO mx d) in *.
    assert (Hdig : Zpos (digits2_pos mz) = Zpos (digits2_pos mx) + Zpos d).
    { apply digits2_unique. rewrite Hmz.
      pose proof (digits2_bounds mx) as [Hlo Hhi].
      assert (Hp : 0 < 2 ^ Zpos d) by (apply Z.pow_pos_nonneg; lia).
      assert (0 < Zpos (digits2_pos mx)) by lia.
      replace (Zpos (digits2_pos mx) + Zpos d - 1)
        with (Zpos (digits2_pos mx) - 1 + Zpos d) by lia.
      rewrite !Z.pow_add_r by lia. nia. }
    assert (Hval : Zpos mz * 2 ^ (t + K) = Zpos mx * 2 ^ (ex + K)).
    { rewrite Hmz, <- Z.mul_assoc, <- Z.pow_add_r by lia.
      do 2 f_equal. lia. }
    rewrite <- Hval.
    apply round_aux_rnd; [lia |].
    rewrite Hdig. replace (Zpos (digits2_pos mx) + Zpos d + t)
      with (Zpos (digits2_pos mx) + ex) by lia.
    fold t. lia.
Qed.

(** two valid floats of the same value are the same float *)
Lemma bounded_unique (m1 m2 : positive) (e1 e2 : Z) :
  - K <= e1 -> - K <= e2 ->
  bounded prec emax m1 e1 = true -> bounded prec emax m2 e2 = true ->
  Zpos m1 * 2 ^ (e1 + K) = Zpos m2 * 2 ^ (e2 + K) ->
  m1 = m2 /\ e1 = e2.
Proof.
  intros He1 He2 Hb1 Hb2 Hv.
  apply andb_prop in Hb1 as [Hc1 _]. apply andb_prop in Hb2 as [Hc2 _].
  unfold canonical_mantissa in *.
  apply Z.eqb_eq in Hc1, Hc2.
  rewrite <- (target_of_float m1 e1 He1) in Hc1.
  rewrite <- (target_of_float m2 e2 He2) in Hc2.
  rewrite Hv in Hc1.
  assert (E : e1 = e2) by congruence.
  split; [| exact E]. subst e2.
  assert (Hc : 0 < 2 ^ (e1 + K)) by (apply Z.pow_pos_nonneg; lia).
  apply Z.mul_cancel_r in Hv; [congruence | lia].
Qed.
End Round.

Lemma bounded_inv (prec emax : Z) (m : positive) (e : Z) :
  0 < prec ->
  bounded prec emax m e = true ->
  Zpos m < 2 ^ prec /\ emin prec emax <= e <= emax - prec.
Proof.
  intros Hprec Hb. apply andb_prop in Hb as [Hc He].
  apply Z.leb_le in He. unfold canonical_mantissa in Hc.
  apply Z.eqb_eq in Hc. unfold fexp in Hc.
  pose proof (digits2_bounds m) as [_ Hhi].
  split; [| lia].
  apply Z.lt_le_trans with (2 ^ Zpos (digits2_pos m)); [exact Hhi |].
  apply Z.pow_le_mono_r; lia.
Qed.

Lemma shift_below_emin32 : - SHIFT <= emin F32.prec F32.emax.
Proof. unfold SHIFT, emin, F32.prec, F32.emax. lia. Qed.

Lemma shift_below_emin64 : - SHIFT <= emin F64.prec F64.emax.
Proof. unfold SHIFT, emin, F64.prec, F64.emax. lia. Qed.

(** rounding the value of a valid float returns that float *)
Lemma binary_round_exact (prec emax : Z) (sx : bool) (mx m : positive)
    (ex e : Z) :
  0 < prec -> prec < emax -> - SHIFT <= emin prec emax -> - SHIFT <= ex ->
  bounded prec emax m e = true ->
  Zpos mx * 2 ^ (ex + SHIFT) = Zpos m * 2 ^ (e + SHIFT) ->
  binary_round prec emax sx mx ex = S754_finite sx m e.
Proof.
  intros Hprec Hemax HK Hex Hb Hv.
  destruct (bounded_inv prec emax m e Hprec Hb) as [Hm He].
  pose proof (binary_round_rnd prec emax Hprec Hemax SHIFT HK sx mx ex Hex) as H.
  rewrite Hv, (rnd_exact prec emax Hprec SHIFT HK) in H by lia.
  assert (Hc : 0 < 2 ^ (e + SHIFT)) by (apply Z.pow_pos_nonneg; lia).
  destruct (binary_round prec emax sx mx ex) as [s | s | | s m' e'].
  - destruct H as [_ H]. nia.
  - destruct H as [_ H]. exfalso.
    assert (Zpos m * 2 ^ (e + SHIFT) < 2 ^ prec * 2 ^ (e + SHIFT)) by nia.
    rewrite <- Z.pow_add_r in * by lia.
    assert (2 ^ (prec + (e + SHIFT)) <= 2 ^ (emax + SHIFT))
      by (apply Z.pow_le_mono_r; lia).
    lia.
  - contradiction.
  - destruct H as (-> & Hb' & He' & Hv').
    destruct (bounded_unique prec emax SHIFT m' m e' e He' ltac:(lia) Hb' Hb Hv')
      as [-> ->].
    reflexivity.
Qed.

(** promoting a float to double keeps its value *)
Lemma of_float_value (s : bool) (m : positive) (e : Z) :
  F32.valid (S754_finite s m e) = true ->
  exists m1 e1,
    F64.of_float (S754_finite s m e) = S754_finite s m1 e1 /\
    bounded F64.prec F64.emax m1 e1 = true /\
    Zpos m1 * 2 ^ (e1 + SHIFT) = Zpos m * 2 ^ (e + SHIFT).
Proof.
  intros Hv. unfold F32.valid in Hv. cbn [valid_binary] in Hv.
  destruct (bounded_inv F32.prec F32.emax m e ltac:(reflexivity) Hv)
    as [Hm He].
  change (emin F32.prec F32.emax) with (-149) in He.
  change F32.prec with 24 in *. change F32.emax with 128 in *.
  cbn [F64.of_float].
  assert (HeK : - SHIFT <= e) by (unfold SHIFT; lia).
  pose proof (binary_round_rnd F64.prec F64.emax eq_refl eq_refl SHIFT
                shift_below_emin64 s m e HeK) as H.
  rewrite (rnd_exact F64.prec F64.emax eq_refl SHIFT shift_below_emin64) in H.
  2:{ split; [lia |]. apply Z.lt_trans with (2 ^ 24); [exact Hm |].
      reflexivity. }
  2:{ change (emin F64.prec F64.emax) with (-1074). lia. }
  assert (Hc : 0 < 2 ^ (e + SHIFT)) by (apply Z.pow_pos_nonneg; lia).
  destruct (binary_round F64.prec F64.emax s m e) as [s' | s' | | s' m1 e1].
  - destruct H as [_ H]. nia.
  - destruct H as [_ H]. exfalso.
    assert (Zpos m * 2 ^ (e + SHIFT) < 2 ^ 24 * 2 ^ (e + SHIFT)) by nia.
    rewrite <- Z.pow_add_r in * by lia.
    assert (2 ^ (24 + (e + SHIFT)) <= 2 ^ (F64.emax + SHIFT))
      by (apply Z.pow_le_mono_r; unfold F64.emax; lia).
    lia.
  - contradiction.
  - destruct H as (-> & Hb1 & _ & Hv1). exists m1, e1. auto.
Qed.

(** a float survives the trip through double *)
Lemma of_double_of_float (x : float) :
  F32.valid x = true -> F32.of_double (F64.of_float x) = x.
Proof.
  intros Hv. destruct x as [s | s | | s m e]; try reflexivity.
  destruct (of_float_value s m e Hv) as (m1 & e1 & -> & Hb1 & Hval).
  cbn [F32.of_double].
  apply binary_round_exact; try reflexivity; try exact Hv; try exact Hval.
  - exact shift_below_emin32.
  - apply bounded_inv in Hb1; [| reflexivity].
    change (emin F64.prec F64.emax) with (-1074) in Hb1. unfold SHIFT. lia.
Qed.

(** rounding lands between the roundings of two bounds *)
Lemma round_aux_between (prec emax : Z) (sx : bool) (m : positive) (e : Z)
    (lo hi : Z) :
  0 < prec -> prec < emax -> - SHIFT <= emin prec emax -> - SHIFT <= e ->
  e <= fexp prec emax (Zpos (digits2_pos m) + e) ->
  0 < lo -> lo <= Zpos m * 2 ^ (e + SHIFT) <= hi ->
  0 < rnd prec emax SHIFT lo -> rnd prec emax SHIFT hi < 2 ^ (emax + SHIFT) ->
  exists m' e',
    binary_round_aux prec emax sx (Zpos m) e loc_Exact = S754_finite sx m' e'
    /\ bounded prec emax m' e' = true /\ - SHIFT <= e'
    /\ rnd prec emax SHIFT lo <= Zpos m' * 2 ^ (e' + SHIFT) <= rnd prec emax SHIFT hi.
Proof.
  intros Hprec Hemax HK He Hal Hlo Hv Hrlo Hrhi.
  pose proof (round_aux_rnd prec emax Hprec Hemax SHIFT HK sx m e He Hal) as H.
  pose proof (rnd_mono prec emax Hprec SHIFT HK lo _ Hlo (proj1 Hv)) as M1.
  assert (Hpos : 0 < Zpos m * 2 ^ (e + SHIFT)) by lia.
  pose proof (rnd_mono prec emax Hprec SHIFT HK _ hi Hpos (proj2 Hv)) as M2.
  destruct (binary_round_aux prec emax sx (Zpos m) e loc_Exact)
    as [s | s | | s m' e'].
  - destruct H as [_ H]. lia.
  - destruct H as [_ H]. lia.
  - contradiction.
  - destruct H as (-> & Hb & He' & Hval).
    exists m', e'. rewrite Hval. auto.
Qed.

Lemma binary_round_between (prec emax : Z) (sx : bool) (m : positive) (e : Z)
    (lo hi : Z) :
  0 < prec -> prec < emax -> - SHIFT <= emin prec emax -> - SHIFT <= e ->
  0 < lo -> lo <= Zpos m * 2 ^ (e + SHIFT) <= hi ->
  0 < rnd prec emax SHIFT lo -> rnd prec emax SHIFT hi < 2 ^ (emax + SHIFT) ->
  exists m' e',
    binary_round prec emax sx m e = S754_finite sx m' e'
    /\ bounded prec emax m' e' = true /\ - SHIFT <= e'
    /\ rnd prec emax SHIFT lo <= Zpos m' * 2 ^ (e' + SHIFT) <= rnd prec emax SHIFT hi.
Proof.
  intros Hprec Hemax HK He Hlo Hv Hrlo Hrhi.
  pose proof (binary_round_rnd prec emax Hprec Hemax SHIFT HK sx m e He) as H.
  pose proof (rnd_mono prec emax Hprec SHIFT HK lo _ Hlo (proj1 Hv)) as M1.
  assert (Hpos : 0 < Zpos m * 2 ^ (e + SHIFT)) by lia.
  pose proof (rnd_mono prec emax Hprec SHIFT HK _ hi Hpos (proj2 Hv)) as M2.
  destruct (binary_round prec emax sx m e) as [s | s | | s m' e'].
  - destruct H as [_ H]. lia.
  - destruct H as [_ H]. lia.
  - contradiction.
  - destruct H as (-> & Hb & He' & Hval).
    exists m', e'. rewrite Hval. auto.
Qed.

Lemma shl_align_value (m : positive) (e ez : Z) :
  ez <= e -> - SHIFT <= ez ->
  Zpos (fst (shl_align m e ez)) * 2 ^ (ez + SHIFT) = Zpos m * 2 ^ (e + SHIFT).
Proof.
  intros Hle HK. unfold shl_align.
  destruct (ez - e) as [| d | d] eqn:Ed; cbn [fst]; try (f_equal; f_equal; lia).
  rewrite pos_iter_xO_pow2, <- Z.mul_assoc, <- Z.pow_add_r by lia.
  do 2 f_equal. lia.
Qed.


Lemma SFadd_positive (prec emax : Z) (mx my : positive) (ex ey : Z) :
  SFadd prec emax (S754_finite false mx ex) (S754_finite false my ey) =
  binary_round prec emax false
    (fst (shl_align mx ex (Z.min ex ey)) + fst (shl_align my ey (Z.min ex ey)))
    (Z.min ex ey).
Proof. reflexivity. Qed.

(** a float below 1 is at most the largest float below 1 *)
Lemma below_one_le_max (m : positive) (e : Z) :
  Zpos m < 2 ^ 24 -> -149 <= e ->
  Zpos m * 2 ^ (e + SHIFT) < 2 ^ SHIFT ->
  Zpos m * 2 ^ (e + SHIFT) <= below_one32.
Proof.
  intros Hm He Hlt. unfold below_one32.
  assert (HP : 0 < 2 ^ (SHIFT - 24)) by (apply Z.pow_pos_nonneg; unfold SHIFT; lia).
  destruct (Z.le_gt_cases 0 (e + 24)) as [Hge | Hneg].
  - assert (E1 : 2 ^ (e + SHIFT) = 2 ^ (e + 24) * 2 ^ (SHIFT - 24)).
    { rewrite <- Z.pow_add_r by (unfold SHIFT; lia). f_equal; lia. }
    assert (E2 : 2 ^ SHIFT = 2 ^ 24 * 2 ^ (SHIFT - 24)).
    { rewrite <- Z.pow_add_r by (unfold SHIFT; lia). f_equal; lia. }
    rewrite E1, E2 in Hlt. rewrite E1.
    assert (Hq : 0 < 2 ^ (e + 24)) by (apply Z.pow_pos_nonneg; lia).
    set (a := Zpos m * 2 ^ (e + 24)).
    assert (Ha : a < 2 ^ 24).
    { apply (Z.mul_lt_mono_pos_r (2 ^ (SHIFT - 24))); [exact HP |].
      unfold a. lia. }
    replace (Zpos m * (2 ^ (e + 24) * 2 ^ (SHIFT - 24))) with (a * 2 ^ (SHIFT - 24))
      by (unfold a; lia).
    apply Z.mul_le_mono_nonneg_r; lia.
  - assert (Hq : 0 < 2 ^ (e + SHIFT)) by (apply Z.pow_pos_nonneg; unfold SHIFT; lia).
    assert (2 ^ (e + SHIFT) <= 2 ^ (SHIFT - 24))
      by (apply Z.pow_le_mono_r; unfold SHIFT; lia).
    apply Z.le_trans with ((2 ^ 24 - 1) * 2 ^ (e + SHIFT)).
    + apply Z.mul_le_mono_nonneg_r; lia.
    + apply Z.mul_le_mono_nonneg_l; [| assumption].
      assert (0 < 2 ^ 24) by reflexivity. lia.
Qed.

(** [0.1 + u * 2.0] for a positive float [u] below 1: the promotion and
    the product are exact, the sum is rounded to double and then to
    float, and both roundings keep it between the roundings of the
    bounds *)
Lemma random_size_finite (m : positive) (e : Z) :
  F32.valid (S754_finite false m e) = true ->
  Zpos m * 2 ^ (e + SHIFT) < 2 ^ SHIFT ->
  exists m4 e4,
    Presets.random_size (S754_finite false m e) = S754_finite false m4 e4 /\
    F32.valid (S754_finite false m4 e4) = true /\
    - SHIFT <= e4 /\
    tenth32 <= Zpos m4 * 2 ^ (e4 + SHIFT) <= two_tenth32.
Proof.
  intros Hv Hone.
  destruct (of_float_value false m e Hv) as (m1 & e1 & E1 & Hb1 & Hval1).
  pose proof Hv as Hb. unfold F32.valid in Hb. cbn [valid_binary] in Hb.
  apply bounded_inv in Hb; [| reflexivity]. destruct Hb as [Hm He].
  change (emin F32.prec F32.emax) with (-149) in He.
  change F32.prec with 24 in Hm.
  pose proof Hb1 as Hb1'. apply bounded_inv in Hb1'; [| reflexivity].
  destruct Hb1' as [Hm1 He1].
  change (emin F64.prec F64.emax) with (-1074) in He1.
  set (V := Zpos m * 2 ^ (e + SHIFT)) in *.
  assert (HV0 : 0 < V).
  { unfold V. apply Z.mul_pos_pos; [lia |].
    apply Z.pow_pos_nonneg; unfold SHIFT; lia. }
  assert (HVmax : V <= below_one32) by (apply below_one_le_max; lia).
  unfold Presets.random_size. rewrite E1.
  (* the product with 2.0 is exact *)
  change d_2_0 with (S754_finite false 4503599627370496 (-51)).
  unfold F64.mul. cbn [SFmul xorb].
  assert (H2V : 2 * V = Zpos m * 2 ^ (e + 1 + SHIFT)).
  { unfold V. replace (e + 1 + SHIFT) with (Z.succ (e + SHIFT)) by lia.
    rewrite Z.pow_succ_r by (unfold SHIFT; lia). lia. }
  assert (Hr2 : rnd F64.prec F64.emax SHIFT (2 * V) = 2 * V).
  { rewrite H2V. apply rnd_exact; [reflexivity | exact shift_below_emin64 | |].
    - split; [lia |]. apply Z.lt_trans with (2 ^ 24); [exact Hm | reflexivity].
    - change (emin F64.prec F64.emax) with (-1074). lia. }
  destruct (round_aux_between F64.prec F64.emax false
              (m1 * 4503599627370496) (e1 + -51) (2 * V) (2 * V))
    as (m2 & e2 & E2 & Hb2 & He2 & Hval2);
    try reflexivity; try exact shift_below_emin64.
  - unfold SHIFT. lia.
  - pose proof (digits2_bounds (m1 * 4503599627370496)) as [_ Hhi].
    set (d := Zpos (digits2_pos (m1 * 4503599627370496))) in *.
    assert (52 < d).
    { apply (Z.pow_lt_mono_r_iff 2); [lia | lia |].
      apply Z.le_lt_trans with (Zpos (m1 * 4503599627370496)); [| exact Hhi].
      rewrite Pos2Z.inj_mul. change (2 ^ 52) with 4503599627370496. lia. }
    unfold fexp, F64.prec. lia.
  - lia.
  - assert (Zpos (m1 * 4503599627370496) * 2 ^ (e1 + -51 + SHIFT) = 2 * V).
    { rewrite Pos2Z.inj_mul. change 4503599627370496 with (2 ^ 52).
      rewrite <- Z.mul_assoc, <- Z.pow_add_r by (unfold SHIFT; lia).
      replace (52 + (e1 + -51 + SHIFT)) with (Z.succ (e1 + SHIFT)) by lia.
      rewrite Z.pow_succ_r by (unfold SHIFT; lia). lia. }
    lia.
  - rewrite Hr2. lia.
  - rewrite Hr2.
    apply Z.le_lt_trans with (2 * below_one32); [lia |]. vm_compute. reflexivity.
  - rewrite E2. rewrite Hr2 in Hval2.
    (* the sum with 0.1 is rounded once, to double *)
    change d_0_1 with (S754_finite false 7205759403792794 (-56)).
    unfold F64.add. rewrite SFadd_positive.
    set (ez := Z.min (-56) e2).
    assert (Hez : - SHIFT <= ez) by (unfold ez, SHIFT in *; lia).
    destruct (binary_round_between F64.prec F64.emax false
                (fst (shl_align 7205759403792794 (-56) ez) +
                 fst (shl_align m2 e2 ez)) ez tenth64 (tenth64 + 2 * below_one32))
      as (m3 & e3 & E3 & Hb3 & He3 & Hval3);
      try reflexivity; try exact shift_below_emin64; try exact Hez.
    + rewrite Pos2Z.inj_add, Z.mul_add_distr_r.
      rewrite !shl_align_value by (unfold ez; lia).
      change (-56 + SHIFT) with (SHIFT - 56). fold tenth64. lia.
    + rewrite E3. cbn [F32.of_double].
      (* and once more, to float *)
      destruct (binary_round_between F32.prec F32.emax false m3 e3
                  (rnd F64.prec F64.emax SHIFT tenth64)
                  (rnd F64.prec F64.emax SHIFT (tenth64 + 2 * below_one32)))
        as (m4 & e4 & E4 & Hb4 & He4 & Hval4);
        try reflexivity; try exact shift_below_emin32; try exact He3;
        try exact Hval3.
      exists m4, e4. split; [exact E4 |]. split; [exact Hb4 |].
      split; [exact He4 |].
      assert (Elo : rnd F32.prec F32.emax SHIFT (rnd F64.prec F64.emax SHIFT tenth64) = tenth32)
        by (vm_compute; reflexivity).
      assert (Ehi : rnd F32.prec F32.emax SHIFT
                      (rnd F64.prec F64.emax SHIFT (tenth64 + 2 * below_one32)) = two_tenth32)
        by (vm_compute; reflexivity).
      rewrite <- Elo, <- Ehi. exact Hval4.
Qed.


(** ** Values

    The rational value of a float against its scaled value. *)

Lemma value_scaled (K : Z) (m : positive) (e : Z) :
  0 <= K -> - K <= e ->
  Qeq (Qmult (inject_Z (Zpos m)) (Qpow2 e))
      (Qmake (Zpos m * 2 ^ (e + K)) (Z.to_pos (2 ^ K))).
Proof.
  intros HK He.
  assert (HP : 0 < 2 ^ K) by (apply Z.pow_pos_nonneg; lia).
  unfold Qeq.
  destruct e as [| p | p]; cbn [Qpow2 Qmult inject_Z Qnum Qden];
    rewrite Z2Pos.id by exact HP.
  - rewrite Z.add_0_l. change (Zpos (1 * 1)) with 1. lia.
  - change (Zpos (1 * 1)) with 1.
    rewrite Pos2Z.inj_pow, Z.pow_add_r by lia. lia.
  - rewrite Pos2Z.inj_mul, Pos2Z.inj_pow.
    change (Zpos 1) with 1.
    assert (E : 2 ^ K = 2 ^ (Zneg p + K) * 2 ^ Zpos p).
    { rewrite <- Z.pow_add_r by lia. f_equal. lia. }
    rewrite E at 1. lia.
Qed.

Lemma value_ge_scaled (K : Z) (m : positive) (e : Z) (a : Z) (b : positive) :
  0 <= K -> - K <= e ->
  a * 2 ^ K <= Zpos m * 2 ^ (e + K) * Zpos b ->
  Qle (Qmake a b) (Qmult (inject_Z (Zpos m)) (Qpow2 e)).
Proof.
  intros HK He H. rewrite (value_scaled K m e HK He).
  unfold Qle. cbn [Qnum Qden].
  rewrite Z2Pos.id by (apply Z.pow_pos_nonneg; lia). exact H.
Qed.

Lemma value_le_scaled (K : Z) (m : positive) (e : Z) (a : Z) (b : positive) :
  0 <= K -> - K <= e ->
  Zpos m * 2 ^ (e + K) * Zpos b <= a * 2 ^ K ->
  Qle (Qmult (inject_Z (Zpos m)) (Qpow2 e)) (Qmake a b).
Proof.
  intros HK He H. rewrite (value_scaled K m e HK He).
  unfold Qle. cbn [Qnum Qden].
  rewrite Z2Pos.id by (apply Z.pow_pos_nonneg; lia). exact H.
Qed.

Lemma value_lt_scaled (K : Z) (m : positive) (e : Z) (a : Z) (b : positive) :
  0 <= K -> - K <= e ->
  Zpos m * 2 ^ (e + K) * Zpos b < a * 2 ^ K ->
  Qlt (Qmult (inject_Z (Zpos m)) (Qpow2 e)) (Qmake a b).
Proof.
  intros HK He H. rewrite (value_scaled K m e HK He).
  unfold Qlt. cbn [Qnum Qden].
  rewrite Z2Pos.id by (apply Z.pow_pos_nonneg; lia). exact H.
Qed.

Lemma Qpow2_positive (e : Z) : Qlt (Qmake 0 1) (Qpow2 e).
Proof. destruct e; reflexivity. Qed.

(** a valid float with a value in [0, 1) is a zero or a positive float
    whose scaled value is below [2^SHIFT] *)
Lemma unit_draw_cases (u : float) :
  F32.valid u = true -> value_in_co (Qmake 0 1) (Qmake 1 1) u ->
  (exists s, u = S754_zero s) \/
  (exists m e, u = S754_finite false m e /\
               Zpos m * 2 ^ (e + SHIFT) < 2 ^ SHIFT).
Proof.
  intros Hv (q & Hq & H0 & H1).
  destruct u as [s | s | | s m e]; try discriminate Hq.
  - left. now exists s.
  - right. cbn [finite_value] in Hq. injection Hq as <-.
    unfold F32.valid in Hv. cbn [valid_binary] in Hv.
    apply bounded_inv in Hv; [| reflexivity]. destruct Hv as [_ He].
    change (emin F32.prec F32.emax) with (-149) in He.
    assert (HeK : - SHIFT <= e) by (unfold SHIFT; lia).
    destruct s; cbn [cond_Zopp] in *.
    + exfalso. pose proof (Qpow2_positive e) as Hp.
      unfold Qle, Qlt, Qmult, inject_Z in *. cbn [Qnum Qden] in *. nia.
    + exists m, e. split; [reflexivity |].
      rewrite (value_scaled SHIFT m e ltac:(unfold SHIFT; lia) HeK) in H1.
      unfold Qlt in H1. cbn [Qnum Qden] in H1.
      rewrite Z2Pos.id in H1 by (apply Z.pow_pos_nonneg; unfold SHIFT; lia).
      lia.
Qed.

Lemma value_mono_scaled (m1 m2 : positive) (e1 e2 : Z) :
  - SHIFT <= e1 -> - SHIFT <= e2 ->
  Zpos m1 * 2 ^ (e1 + SHIFT) <= Zpos m2 * 2 ^ (e2 + SHIFT) ->
  Qle (Qmult (inject_Z (Zpos m1)) (Qpow2 e1))
      (Qmult (inject_Z (Zpos m2)) (Qpow2 e2)).
Proof.
  intros H1 H2 H.
  assert (HK : 0 <= SHIFT) by (unfold SHIFT; lia).
  rewrite (value_scaled SHIFT m1 e1 HK H1), (value_scaled SHIFT m2 e2 HK H2).
  unfold Qle. cbn [Qnum Qden].
  apply Z.mul_le_mono_nonneg_r; [lia | exact H].
Qed.

Lemma value_strict_scaled (m1 m2 : positive) (e1 e2 : Z) :
  - SHIFT <= e1 -> - SHIFT <= e2 ->
  Zpos m1 * 2 ^ (e1 + SHIFT) < Zpos m2 * 2 ^ (e2 + SHIFT) ->
  Qlt (Qmult (inject_Z (Zpos m1)) (Qpow2 e1))
      (Qmult (inject_Z (Zpos m2)) (Qpow2 e2)).
Proof.
  intros H1 H2 H.
  assert (HK : 0 <= SHIFT) by (unfold SHIFT; lia).
  rewrite (value_scaled SHIFT m1 e1 HK H1), (value_scaled SHIFT m2 e2 HK H2).
  unfold Qlt. cbn [Qnum Qden].
  apply Z.mul_lt_mono_pos_r; [lia | exact H].
Qed.

(** the size drawn by the space key: [0.1 + u * 2.0] for a draw [u] in
    [0, 1) is a float in [0.1, 2.1], not below the float 0.1f and below
    3.0f *)
Lemma random_size_in_range (u : float) :
  F32.valid u = true ->
  value_in_co (Qmake 0 1) (Qmake 1 1) u ->
  let size := Presets.random_size u in
  value_in (Qmake 1 10) (Qmake 21 10) size /\
  float_le (F32.div (F32.of_Z 1) (F32.of_Z 10)) size /\
  float_lt size (F32.of_Z 3).
Proof.
  intros Hv Hu size.
  assert (Hfin : exists m4 e4,
             size = S754_finite false m4 e4 /\ - SHIFT <= e4 /\
             tenth32 <= Zpos m4 * 2 ^ (e4 + SHIFT) <= two_tenth32).
  { destruct (unit_draw_cases u Hv Hu) as [[s ->] | (m & e & -> & Hlt)].
    - exists 13421773%positive, (-27).
      split; [destruct s; vm_compute; reflexivity |].
      split; [unfold SHIFT; lia |].
      split; vm_compute; discriminate.
    - destruct (random_size_finite m e Hv Hlt)
        as (m4 & e4 & E & _ & He4 & Hb).
      exists m4, e4. auto. }
  destruct Hfin as (m4 & e4 & -> & He4 & Hlo & Hhi).
  assert (HK : 0 <= SHIFT) by (unfold SHIFT; lia).
  assert (C1 : 1 * 2 ^ SHIFT <= tenth32 * 10) by (vm_compute; discriminate).
  assert (C2 : two_tenth32 * 10 <= 21 * 2 ^ SHIFT) by (vm_compute; discriminate).
  assert (C3 : two_tenth32 < 12582912 * 2 ^ (-22 + SHIFT))
    by (vm_compute; reflexivity).
  split; [| split].
  - eexists. split; [reflexivity |]. cbn [cond_Zopp]. split.
    + apply (value_ge_scaled SHIFT); [exact HK | exact He4 |]. lia.
    + apply (value_le_scaled SHIFT); [exact HK | exact He4 |]. lia.
  - change (F32.div (F32.of_Z 1) (F32.of_Z 10))
      with (S754_finite false 13421773 (-27)).
    do 2 eexists. split; [reflexivity |]. split; [reflexivity |].
    cbn [cond_Zopp].
    apply value_mono_scaled; [unfold SHIFT; lia | exact He4 |].
    change (-27 + SHIFT) with (SHIFT - 27). fold tenth32. exact Hlo.
  - change (F32.of_Z 3) with (S754_finite false 12582912 (-22)).
    do 2 eexists. split; [reflexivity |]. split; [reflexivity |].
    cbn [cond_Zopp].
    apply value_strict_scaled; [exact He4 | unfold SHIFT; lia |]. lia.
Qed.

(** ** Cells *)

Lemma store_same (i : nat) (x : float) (p : cells) : store i x p i = x.
Proof. unfold store. now rewrite Nat.eqb_refl. Qed.

Lemma store_other (i j : nat) (x : float) (p : cells) :
  j <> i -> store i x p j = p j.
Proof.
  intros Hne. unfold store.
  destruct (Nat.eqb_spec j i) as [Heq | _]; [contradiction | reflexivity].
Qed.

Lemma numFields_check (numFields : Z) :
  negb (numFields =? 6) = false <-> numFields = 6.
Proof.
  rewrite negb_false_iff. apply Z.eqb_eq.
Qed.

(** ** The p-fields of a voice *)

Section ParamFields.
Context `{FW : Framework}.

Lemma seq_setParamFields_flag pFields numFields (v : Sequencer.MyVoice) :
  fst (Sequencer.setParamFields pFields numFields v) = true <->
  numFields = 6.
Proof.
  unfold Sequencer.setParamFields.
  destruct (negb (numFields =? 6)) eqn:E; cbn.
  - split; [discriminate |].
    intros ->. discriminate E.
  - split; [| reflexivity].
    intros _. now apply numFields_check.
Qed.

Lemma spat_setParamFields_flag pFields numFields
    (v : Spatialization.MyVoice) :
  fst (Spatialization.setParamFields pFields numFields v) = true <->
  numFields = 6.
Proof.
  unfold Spatialization.setParamFields.
  destruct (negb (numFields =? 6)) eqn:E; cbn.
  - split; [discriminate |].
    intros ->. discriminate E.
  - split; [| reflexivity].
    intros _. now apply numFields_check.
Qed.

(** C1. setParamFields answers true exactly when numFields is 6, in both
    voices, and a call with 6 fields sets x, y, size, oscillator
    frequency and attack length from pFields[0..4] (x and y promoted to
    double in the Pose of the spatialized voice, whose z becomes 0).
    The sixth field misses the release time: it is written to
    lengths()[2], past the two lengths of the envelope, and the release
    length, lengths()[1], stays what it was, which in a voice as
    constructed is 0.5f whatever pFields[5] holds. *)
Theorem setParamFields_misses_the_release_time
    (pFields : cells) (numFields : Z) :
  (forall v : Sequencer.MyVoice,
     (fst (Sequencer.setParamFields pFields numFields v) = true <->
      numFields = 6) /\
     fst (Sequencer.setParamFields pFields 6 v) = true /\
     let v' := snd (Sequencer.setParamFields pFields 6 v) in
     Sequencer.params v' =
       [ pFields 0%nat; pFields 1%nat; pFields 2%nat; pFields 3%nat;
         pFields 4%nat; snd (lengths (Sequencer.mEnvelope v)) ] /\
     stage (Sequencer.mEnvelope v') =
       env_past_store 0 (pFields 5%nat) (stage (Sequencer.mEnvelope v))) /\
  (forall v : Spatialization.MyVoice,
     (fst (Spatialization.setParamFields pFields numFields v) = true <->
      numFields = 6) /\
     fst (Spatialization.setParamFields pFields 6 v) = true /\
     let v' := snd (Spatialization.setParamFields pFields 6 v) in
     Spatialization.params v' =
       [ F64.of_float (pFields 0%nat); F64.of_float (pFields 1%nat);
         pFields 2%nat; pFields 3%nat; pFields 4%nat;
         snd (lengths (Spatialization.mEnvelope v)) ] /\
     pos_z (Spatialization.mPose v') = S754_zero false /\
     stage (Spatialization.mEnvelope v') =
       env_past_store 0 (pFields 5%nat)
         (stage (Spatialization.mEnvelope v))) /\
  (forall (source : Sine) (envelope : AD) (data : nat),
     snd (lengths (Sequencer.mEnvelope
            (snd (Sequencer.setParamFields pFields 6
                    (Sequencer.MyVoice_new source envelope))))) =
       F32.div (F32.of_Z 5) (F32.of_Z 10) /\
     snd (lengths (Spatialization.mEnvelope
            (snd (Spatialization.setParamFields pFields 6
                    (Spatialization.MyVoice_new source envelope data))))) =
       F32.div (F32.of_Z 5) (F32.of_Z 10)).
Proof.
  split; [| split].
  - intros v. split; [apply seq_setParamFields_flag |].
    repeat split; reflexivity.
  - intros v. split; [apply spat_setParamFields_flag |].
    repeat split; reflexivity.
  - intros source envelope data. split; reflexivity.
Qed.

(** C9. A call of setParamFields with numFields other than 6 answers
    false and hands back the voice as it was, in both voices. *)
Theorem setParamFields_rejects_atomically (pFields : cells) (numFields : Z)
    (Hn : numFields <> 6) :
  (forall v : Sequencer.MyVoice,
     Sequencer.setParamFields pFields numFields v = (false, v)) /\
  (forall v : Spatialization.MyVoice,
     Spatialization.setParamFields pFields numFields v = (false, v)).
Proof.
  assert (E : negb (numFields =? 6) = true).
  { apply negb_true_iff, Z.eqb_neq, Hn. }
  split; intros v.
  - unfold Sequencer.setParamFields. now rewrite E.
  - unfold Spatialization.setParamFields. now rewrite E.
Qed.
End ParamFields.

Lemma setParamFields_rejects_atomically_witness :
  5 <> 6 /\
  Sequencer.setParamFields Demo.pFields 5 Demo.voice = (false, Demo.voice) /\
  Spatialization.setParamFields Demo.pFields 5 Demo.spat_voice =
    (false, Demo.spat_voice).
Proof.
  split; [lia |].
  split.
  - apply (setParamFields_rejects_atomically Demo.pFields 5); lia.
  - apply (setParamFields_rejects_atomically Demo.pFields 5); lia.
Defined.

Lemma setParamFields_misses_the_release_time_witness :
  Demo.pFields 5%nat = S754_finite false 12582912 (-21) /\
  snd (lengths (Sequencer.mEnvelope
         (snd (Sequencer.setParamFields Demo.pFields 6
                 (Sequencer.MyVoice_new Demo.sine Demo.envelope))))) =
    S754_finite false 8388608 (-24) /\
  snd (lengths (Spatialization.mEnvelope
         (snd (Spatialization.setParamFields Demo.pFields 6
                 (Spatialization.MyVoice_new Demo.sine Demo.envelope 7))))) =
    S754_finite false 8388608 (-24).
Proof.
  split; [reflexivity |].
  exact (proj2 (proj2 (setParamFields_misses_the_release_time
                         Demo.pFields 6))
           Demo.sine Demo.envelope 7%nat).
Defined.

(** ** The round trip of the p-fields *)

Section RoundTrip.
Context `{FW : Framework}.

Lemma store_six_read (p : cells) (a0 a1 a2 a3 a4 a5 : float) :
  let q := store 5 a5 (store 4 a4 (store 3 a3 (store 2 a2
             (store 1 a1 (store 0 a0 p))))) in
  map q (seq 0 6) = [a0; a1; a2; a3; a4; a5] /\
  forall i, (6 <= i)%nat -> q i = p i.
Proof.
  intros q. split; [reflexivity |].
  intros i Hi. unfold q. rewrite !store_other by lia. reflexivity.
Qed.

(** [set] leaves a position made of two promoted floats *)
Lemma set_pose_of_floats (x y size frequency attackTime releaseTime : float)
    (v : Spatialization.MyVoice) :
  F32.valid x = true -> F32.valid y = true ->
  Spatialization.pose_of_floats
    (Spatialization.set x y size frequency attackTime releaseTime v).
Proof.
  intros Hx Hy. exists x, y. repeat split; assumption.
Qed.

(** C2. getParamFields answers 6 and writes cells 0 to 5 and no other
    cell: x, y, size, frequency and attack length into cells 0 to 4,
    and into cell 5 not the release time but what lengths()[2] yields,
    past the two lengths of the envelope.  Handing the cells back to
    setParamFields with the count it answered is accepted and leaves
    the six parameters of the voice as they were, the release length
    because neither call touches it; what was read past the lengths is
    written back there.  In the spatialized voice x and y are narrowed
    to float on the way out, and the position is one that [set]
    produces: two promoted floats. *)
Theorem getParamFields_reads_past_the_lengths
    (pFields : cells) (v : Sequencer.MyVoice) (vs : Spatialization.MyVoice)
    (Hpose : Spatialization.pose_of_floats vs) :
  (let got := Sequencer.getParamFields pFields v in
   let back := Sequencer.setParamFields got.2 got.1 v in
   got.1 = 6 /\
   map got.2 (seq 0 6) =
     [ Sequencer.mX v; Sequencer.mY v; Sequencer.mSize v;
       freq (Sequencer.mSource v); fst (lengths (Sequencer.mEnvelope v));
       env_past_load 0 (stage (Sequencer.mEnvelope v)) ] /\
   (forall i, (6 <= i)%nat -> got.2 i = pFields i) /\
   back.1 = true /\
   Sequencer.params back.2 = Sequencer.params v /\
   Sequencer.mSource back.2 = Sequencer.mSource v /\
   lengths (Sequencer.mEnvelope back.2) = lengths (Sequencer.mEnvelope v) /\
   stage (Sequencer.mEnvelope back.2) =
     env_past_store 0 (env_past_load 0 (stage (Sequencer.mEnvelope v)))
       (stage (Sequencer.mEnvelope v))) /\
  (let got := Spatialization.getParamFields pFields vs in
   let back := Spatialization.setParamFields got.2 got.1 vs in
   got.1 = 6 /\
   map got.2 (seq 0 6) =
     [ F32.of_double (pos_x (Spatialization.mPose vs));
       F32.of_double (pos_y (Spatialization.mPose vs));
       Spatialization.mSize vs; freq (Spatialization.mSource vs);
       fst (lengths (Spatialization.mEnvelope vs));
       env_past_load 0 (stage (Spatialization.mEnvelope vs)) ] /\
   (forall i, (6 <= i)%nat -> got.2 i = pFields i) /\
   back.1 = true /\
   Spatialization.params back.2 = Spatialization.params vs /\
   stage (Spatialization.mEnvelope back.2) =
     env_past_store 0 (env_past_load 0 (stage (Spatialization.mEnvelope vs)))
       (stage (Spatialization.mEnvelope vs))).
Proof.
  split.
  - intros got back.
    split; [reflexivity |]. split; [reflexivity |].
    split; [intros i Hi; apply (store_six_read pFields); exact Hi |].
    split; [reflexivity |]. split; [reflexivity |].
    split; [destruct v as [[f ph] env x y sz]; reflexivity |].
    split; [| reflexivity].
    cbn. now destruct (lengths (Sequencer.mEnvelope v)).
  - intros got back.
    split; [reflexivity |]. split; [reflexivity |].
    split; [intros i Hi; apply (store_six_read pFields); exact Hi |].
    split; [reflexivity |]. split; [| reflexivity].
    destruct Hpose as (x & y & Hx & Hy & Ex & Ey).
    unfold back, got, Spatialization.params. cbn.
    rewrite Ex, Ey, !of_double_of_float by assumption. reflexivity.
Qed.

(** the constructor leaves a position of two promoted floats as well *)
Lemma new_pose_of_floats (source : Sine) (envelope : AD) (data : nat) :
  Spatialization.pose_of_floats
    (Spatialization.MyVoice_new source envelope data).
Proof.
  exists (F32.of_Z 0), (F32.of_Z 0). repeat split; reflexivity.
Qed.

(** the envelope lengths of a voice that was constructed and then set:
    [set] writes the attack length, the release length keeps the
    constructor's 0.5f *)
Lemma set_after_new_lengths
    (x y size frequency attackTime releaseTime : float)
    (source : Sine) (envelope : AD) :
  let v := Sequencer.set x y size frequency attackTime releaseTime
             (Sequencer.MyVoice_new source envelope) in
  lengths (Sequencer.mEnvelope v) =
    (attackTime, F32.div (F32.of_Z 5) (F32.of_Z 10)).
Proof. reflexivity. Qed.
End RoundTrip.

Lemma getParamFields_reads_past_the_lengths_witness :
  Spatialization.pose_of_floats
    (Spatialization.MyVoice_new Demo.sine Demo.envelope 7) /\
  (Sequencer.getParamFields Demo.pFields
     (Sequencer.MyVoice_new Demo.sine Demo.envelope)).2 5%nat =
    S754_finite true 8388608 (-21) /\
  snd (lengths (Sequencer.mEnvelope
                  (Sequencer.MyVoice_new Demo.sine Demo.envelope))) =
    S754_finite false 8388608 (-24) /\
  (Spatialization.getParamFields Demo.pFields
     (Spatialization.MyVoice_new Demo.sine Demo.envelope 7)).2 5%nat =
    S754_finite true 8388608 (-21).
Proof.
  assert (Hpose : Spatialization.pose_of_floats
                    (Spatialization.MyVoice_new Demo.sine Demo.envelope 7)).
  { exists (F32.of_Z 0), (F32.of_Z 0). repeat split; reflexivity. }
  split; [exact Hpose |].
  destruct (getParamFields_reads_past_the_lengths
              Demo.pFields (Sequencer.MyVoice_new Demo.sine Demo.envelope)
              (Spatialization.MyVoice_new Demo.sine Demo.envelope 7) Hpose)
    as [(_ & Hseq & _) (_ & Hspat & _)].
  cbn zeta in Hseq, Hspat.
  split; [| split].
  - exact (f_equal (fun l => default (F32.of_Z 0) (l !! 5%nat)) Hseq).
  - reflexivity.
  - exact (f_equal (fun l => default (F32.of_Z 0) (l !! 5%nat)) Hspat).
Defined.

(** ** One block of a voice *)

Section Blocks.
Context `{FW : Framework}.

Lemma AD_after_succ (n : nat) (e : AD) :
  AD_after n (snd (AD_call e)) = AD_after (S n) e.
Proof. unfold AD_after. now rewrite Nat.iter_succ_r. Qed.

Lemma Sine_after_succ (n : nat) (s : Sine) :
  Sine_after n (snd (Sine_call s)) = Sine_after (S n) s.
Proof. unfold Sine_after. now rewrite Nat.iter_succ_r. Qed.

Lemma seq_frame_unfold (i : nat) (v : Sequencer.MyVoice) (out : list float) :
  SequencerApp.onProcess_frame i (v, out) =
  ({| Sequencer.mSource := snd (Sine_call (Sequencer.mSource v));
      Sequencer.mEnvelope := snd (AD_call (Sequencer.mEnvelope v));
      Sequencer.mX := Sequencer.mX v;
      Sequencer.mY := Sequencer.mY v;
      Sequencer.mSize := Sequencer.mSize v |},
   alter (fun o =>
            F32.of_double
              (F64.add (F64.of_float o)
                 (scaled_sample (fst (AD_call (Sequencer.mEnvelope v)))
                                (fst (Sine_call (Sequencer.mSource v))))))
         i out).
Proof.
  unfold SequencerApp.onProcess_frame.
  destruct (AD_call (Sequencer.mEnvelope v)) as [e env].
  destruct (Sine_call (Sequencer.mSource v)) as [s src].
  reflexivity.
Qed.

Lemma spat_frame_unfold (i : nat) (v : Spatialization.MyVoice)
    (bus : list float) :
  Spatialization.onProcess_frame i (v, bus) =
  ({| Spatialization.mSource := snd (Sine_call (Spatialization.mSource v));
      Spatialization.mEnvelope := snd (AD_call (Spatialization.mEnvelope v));
      Spatialization.mPose := Spatialization.mPose v;
      Spatialization.mSize := Spatialization.mSize v;
      Spatialization.userData := Spatialization.userData v |},
   <[ i := F32.of_double
             (scaled_sample (fst (AD_call (Spatialization.mEnvelope v)))
                            (fst (Sine_call (Spatialization.mSource v)))) ]>
     bus).
Proof.
  unfold Spatialization.onProcess_frame.
  destruct (AD_call (Spatialization.mEnvelope v)) as [e env].
  destruct (Sine_call (Spatialization.mSource v)) as [s src].
  reflexivity.
Qed.

(** the envelope a voice is left with after the frames of a block *)
Lemma seq_block_envelope (n cur : nat) (v : Sequencer.MyVoice)
    (out : list float) :
  Sequencer.mEnvelope (fst (while_io SequencerApp.onProcess_frame n cur (v, out)))
  = AD_after n (Sequencer.mEnvelope v).
Proof.
  revert cur v out.
  induction n as [| n IH]; intros cur v out; [reflexivity |].
  cbn [while_io]. rewrite seq_frame_unfold, IH. cbn.
  apply AD_after_succ.
Qed.

Lemma spat_block (n : nat) :
  forall (cur : nat) (v : Spatialization.MyVoice) (bus : list float),
    let r := while_io Spatialization.onProcess_frame n cur (v, bus) in
    Spatialization.mEnvelope (fst r) = AD_after n (Spatialization.mEnvelope v)
    /\ Spatialization.mPose (fst r) = Spatialization.mPose v
    /\ Spatialization.userData (fst r) = Spatialization.userData v
    /\ length (snd r) = length bus
    /\ (forall i, (i < cur)%nat -> snd r !! i = bus !! i)
    /\ (forall i, (cur + n <= i)%nat -> snd r !! i = bus !! i)
    /\ (forall i, (i < n)%nat -> (cur + i < length bus)%nat ->
          snd r !! (cur + i)%nat = Some (Spatialization.bus_sample v i)).
Proof.
  induction n as [| n IH]; intros cur v bus r.
  - subst r. cbn. repeat split; try reflexivity. intros i Hi. lia.
  - subst r. cbn [while_io]. rewrite spat_frame_unfold.
    match goal with
    | |- context [while_io _ n (S cur) (?v1, ?b1)] =>
        specialize (IH (S cur) v1 b1); set (r := while_io _ n (S cur) (v1, b1)) in *
    end.
    cbn zeta in IH.
    destruct IH as (Henv & Hpose & Hud & Hlen & Hlo & Hhi & Hmid).
    cbn [Spatialization.mEnvelope Spatialization.mPose Spatialization.userData
         Spatialization.mSource] in *.
    rewrite length_insert in Hlen.
    split; [rewrite Henv; apply AD_after_succ |].
    split; [exact Hpose |].
    split; [exact Hud |].
    split; [exact Hlen |].
    split; [| split].
    + intros i Hi. rewrite Hlo by lia.
      apply list_lookup_insert_ne. lia.
    + intros i Hi. rewrite Hhi by lia.
      apply list_lookup_insert_ne. lia.
    + intros [| i] Hi Hb.
      * rewrite Nat.add_0_r in *. rewrite Hlo by lia.
        rewrite list_lookup_insert_eq by lia. reflexivity.
      * replace (cur + S i)%nat with (S cur + i)%nat by lia.
        rewrite Hmid; [| lia | rewrite length_insert; lia].
        unfold Spatialization.bus_sample, AD_sample, Sine_sample. cbn.
        now rewrite AD_after_succ, Sine_after_succ.
Qed.
End Blocks.

Section Lifecycle.
Context `{FW : Framework}.

Lemma seq_onProcess_calls (v : Sequencer.MyVoice) (io : AudioIOData) :
  (SequencerApp.onProcess v io).2 =
  if AD_done (Sequencer.mEnvelope (SequencerApp.onProcess v io).1.1)
  then [SequencerApp.Free] else [].
Proof.
  unfold SequencerApp.onProcess.
  destruct (while_io _ _ _ _) as [v1 out]. reflexivity.
Qed.

Lemma seq_onProcess_envelope (v : Sequencer.MyVoice) (io : AudioIOData) :
  Sequencer.mEnvelope (SequencerApp.onProcess v io).1.1 =
  AD_after (framesPerBuffer io - frame io) (Sequencer.mEnvelope v).
Proof.
  pose proof (seq_block_envelope (framesPerBuffer io - frame io) (frame io)
                v (outBuffer0 io)) as H.
  unfold SequencerApp.onProcess.
  destruct (while_io _ _ _ _) as [v1 out]. exact H.
Qed.

Lemma spat_onProcess_calls (v : Spatialization.MyVoice) (io : AudioIOData) :
  let r := Spatialization.onProcess v io in
  r.2 =
  Spatialization.RenderBuffer
    (Spatialization.userData v) (Spatialization.mPose v)
    (busBuffer0 r.1.2) (framesPerBuffer io)
  :: (if AD_done (Spatialization.mEnvelope r.1.1)
      then [Spatialization.Free] else []).
Proof.
  pose proof (spat_block (framesPerBuffer io - frame io) (frame io)
                v (busBuffer0 io)) as H.
  cbn zeta in H. destruct H as (_ & Hpose & Hud & _).
  unfold Spatialization.onProcess in *.
  destruct (while_io _ _ _ _) as [v1 bus]. cbn in *.
  now rewrite Hpose, Hud.
Qed.

Lemma spat_onProcess_envelope (v : Spatialization.MyVoice)
    (io : AudioIOData) :
  Spatialization.mEnvelope (Spatialization.onProcess v io).1.1 =
  AD_after (framesPerBuffer io - frame io) (Spatialization.mEnvelope v).
Proof.
  pose proof (spat_block (framesPerBuffer io - frame io) (frame io)
                v (busBuffer0 io)) as H.
  cbn zeta in H. destruct H as (Henv & _).
  unfold Spatialization.onProcess.
  destruct (while_io _ _ _ _) as [v1 bus]. exact Henv.
Qed.

(** C3. In both voices onProcess(AudioIOData&) calls free() exactly when
    the envelope, as the frames of the block leave it, reports done; the
    call comes last, after the block (and after renderBuffer in the
    spatialized voice), and a voice whose envelope is not done makes no
    such call. *)
Theorem onProcess_frees_iff_envelope_done (io : AudioIOData) :
  (forall v : Sequencer.MyVoice,
     let r := SequencerApp.onProcess v io in
     let env := AD_after (framesPerBuffer io - frame io)
                         (Sequencer.mEnvelope v) in
     Sequencer.mEnvelope r.1.1 = env /\
     (In SequencerApp.Free r.2 <-> AD_done env = true) /\
     r.2 = if AD_done env then [SequencerApp.Free] else []) /\
  (forall v : Spatialization.MyVoice,
     let r := Spatialization.onProcess v io in
     let env := AD_after (framesPerBuffer io - frame io)
                         (Spatialization.mEnvelope v) in
     Spatialization.mEnvelope r.1.1 = env /\
     (In Spatialization.Free r.2 <-> AD_done env = true) /\
     exists rb, Spatialization.is_render rb = true /\
       r.2 = rb :: (if AD_done env then [Spatialization.Free] else [])).
Proof.
  split; intros v r env.
  - assert (Henv : Sequencer.mEnvelope r.1.1 = env)
      by apply seq_onProcess_envelope.
    assert (Hcalls : r.2 = if AD_done env then [SequencerApp.Free] else []).
    { subst r. rewrite seq_onProcess_calls. now rewrite seq_onProcess_envelope. }
    split; [exact Henv |]. split; [| exact Hcalls].
    rewrite Hcalls. destruct (AD_done env); cbn.
    + split; [reflexivity | intros _; now left].
    + split; [contradiction | discriminate].
  - assert (Henv : Spatialization.mEnvelope r.1.1 = env)
      by apply spat_onProcess_envelope.
    pose proof (spat_onProcess_calls v io) as Hcalls. cbn zeta in Hcalls.
    fold r in Hcalls. rewrite Henv in Hcalls.
    split; [exact Henv |]. split.
    + rewrite Hcalls. destruct (AD_done env); cbn.
      * split; [reflexivity | intros _; right; now left].
      * split; [| discriminate].
        intros [H | []]. discriminate H.
    + eexists. split; [| exact Hcalls]. reflexivity.
Qed.
End Lifecycle.

Section Spatializer.
Context `{FW : Framework}.

Lemma spat_onProcess_bus (v : Spatialization.MyVoice) (io : AudioIOData) :
  frame io = 0%nat ->
  length (busBuffer0 io) = framesPerBuffer io ->
  busBuffer0 (Spatialization.onProcess v io).1.2 =
  map (Spatialization.bus_sample v) (seq 0 (framesPerBuffer io)).
Proof.
  intros Hframe Hlen.
  pose proof (spat_block (framesPerBuffer io - frame io) (frame io)
                v (busBuffer0 io)) as H.
  cbn zeta in H. destruct H as (_ & _ & _ & Hl & _ & _ & Hmid).
  unfold Spatialization.onProcess.
  destruct (while_io _ _ _ _) as [v1 bus]. cbn in *.
  rewrite Hframe, Nat.sub_0_r in *.
  apply list_eq. intros i.
  destruct (Nat.lt_ge_cases i (framesPerBuffer io)) as [Hi | Hi].
  - specialize (Hmid i Hi). cbn in Hmid. rewrite Hmid by lia.
    rewrite list_lookup_fmap, lookup_seq_lt by exact Hi. reflexivity.
  - rewrite lookup_ge_None_2 by lia.
    rewrite lookup_ge_None_2; [reflexivity |].
    rewrite length_map, length_seq. exact Hi.
Qed.

(** C5. A block of the spatialized voice, rendered from its start into a
    bus of the block's length: frame [i] of bus 0 ends up holding
    envelope * sine * 0.05 of the [i]-th draw whatever the bus held
    before, and the first call the voice makes is renderBuffer on the
    spatializer its user data names, with the voice's own pose, that bus
    buffer and the block length.  The user data onKeyDown hands to
    triggerOn is the application's one spatializer. *)
Theorem onProcess_assigns_bus_then_renders
    (v : Spatialization.MyVoice) (io : AudioIOData)
    (Hstart : frame io = 0%nat)
    (Hbus : length (busBuffer0 io) = framesPerBuffer io) :
  let r := Spatialization.onProcess v io in
  busBuffer0 r.1.2 =
    map (fun i =>
           F32.of_double
             (scaled_sample (AD_sample i (Spatialization.mEnvelope v))
                            (Sine_sample i (Spatialization.mSource v))))
        (seq 0 (framesPerBuffer io)) /\
  (exists rest,
     r.2 = Spatialization.RenderBuffer
             (Spatialization.userData v) (Spatialization.mPose v)
             (busBuffer0 r.1.2) (framesPerBuffer io) :: rest /\
     Forall (fun c => c = Spatialization.Free) rest) /\
  (forall k app voice,
     exists voice' id,
       Spatialization.onKeyDown k app voice =
       [Spatialization.TriggerOn voice' 0 id
          (Spatialization.mSpatializer app)]).
Proof.
  intros r. split; [| split].
  - subst r. now rewrite spat_onProcess_bus.
  - pose proof (spat_onProcess_calls v io) as Hcalls. cbn zeta in Hcalls.
    fold r in Hcalls. eexists. split; [exact Hcalls |].
    destruct (AD_done _); repeat constructor.
  - intros k app voice. do 2 eexists. reflexivity.
Qed.

Lemma render_calls (voices : list Spatialization.MyVoice) :
  forall io : AudioIOData,
    let cs := (Spatialization.render voices io).2 in
    Forall (fun c => Spatialization.is_prepare c = false /\
                     Spatialization.is_finalize c = false) cs /\
    length (List.filter Spatialization.is_render cs) = length voices.
Proof.
  induction voices as [| v rest IH]; intros io cs.
  - subst cs. cbn. split; [constructor | reflexivity].
  - subst cs. cbn [Spatialization.render].
    pose proof (spat_onProcess_calls v (io_rewind io)) as Hv.
    cbn zeta in Hv.
    destruct (Spatialization.onProcess v (io_rewind io)) as [[v1 io1] c1].
    specialize (IH io1). cbn zeta in IH.
    destruct (Spatialization.render rest io1) as [[rest1 io2] c2].
    cbn [fst snd] in *. destruct IH as [IHall IHlen]. subst c1.
    split.
    + apply Forall_app. split; [| exact IHall].
      destruct (AD_done _); repeat constructor.
    + rewrite List.filter_app, length_app, IHlen.
      destruct (AD_done _); reflexivity.
Qed.

(** C4. Whatever the voices of the block, the calls of onSound are one
    prepare on the application's spatializer, then the calls of the
    voices (one renderBuffer for each voice, none of them a prepare or a
    finalize), then one finalize on the same spatializer. *)
Theorem onSound_prepares_and_finalizes_once
    (app : Spatialization.MyApp) (voices : list Spatialization.MyVoice)
    (io : AudioIOData) :
  let calls := (Spatialization.onSound app voices io).2 in
  exists middle,
    calls = Spatialization.Prepare (Spatialization.mSpatializer app)
            :: middle ++
            [Spatialization.Finalize (Spatialization.mSpatializer app)] /\
    middle = (Spatialization.render voices io).2 /\
    length (List.filter Spatialization.is_render middle) = length voices /\
    length (List.filter Spatialization.is_prepare calls) = 1%nat /\
    length (List.filter Spatialization.is_finalize calls) = 1%nat.
Proof.
  intros calls. subst calls. unfold Spatialization.onSound.
  pose proof (render_calls voices io) as H. cbn zeta in H.
  destruct (Spatialization.render voices io) as [[voices1 io1] cs].
  cbn [fst snd] in *. destruct H as [Hall Hlen].
  exists cs. split; [reflexivity |]. split; [reflexivity |].
  split; [exact Hlen |].
  assert (Hnone : List.filter Spatialization.is_prepare cs = [] /\
                  List.filter Spatialization.is_finalize cs = []).
  { clear Hlen. induction Hall as [| c cs' [Hp Hf] _ [IHp IHf]].
    - split; reflexivity.
    - cbn. rewrite Hp, Hf. split; assumption. }
  destruct Hnone as [Hp Hf].
  cbn. rewrite !List.filter_app, Hp, Hf. split; reflexivity.
Qed.
End Spatializer.

Lemma onProcess_assigns_bus_then_renders_witness :
  busBuffer0 (Spatialization.onProcess Demo.spat_voice Demo.io).1.2 =
  [ S754_finite true 13421773 (-28); S754_zero false;
    S754_zero false; S754_zero true ].
Proof.
  destruct (onProcess_assigns_bus_then_renders Demo.spat_voice Demo.io
              eq_refl eq_refl) as [Hbus _].
  rewrite Hbus. vm_compute. reflexivity.
Defined.

(** ** Keys *)

Lemma wrap_int_id (z : Z) : INT_MIN <= z <= INT_MAX -> wrap_int z = z.
Proof.
  unfold INT_MIN, INT_MAX, wrap_int. intros Hz.
  rewrite Z.mod_small; lia.
Qed.

Lemma to_string_digit (d : nat) :
  (d < 10)%nat ->
  to_string (Z.of_nat d) = String (Ascii.ascii_of_nat (48 + d)) EmptyString.
Proof.
  intros Hd.
  do 10 (destruct d as [| d]; [reflexivity |]). lia.
Qed.

Section Keys.
Context `{FW : Framework}.

(** C6. A number key with alt held makes onKeyDown of the presets
    application store a preset under the key's number, named by the
    decimal string of that number; without alt it recalls the preset of
    that number.  The application is left as it was.  For the numbers 0
    to 9 the decimal string is the one digit. *)
Theorem onKeyDown_number_key_stores_or_recalls
    (k : Keyboard) (app : Presets.MyApp) (Hnumber : isNumber k = true) :
  let n := keyAsNumber k in
  Presets.onKeyDown k app =
    (app,
     if alt k
     then [ Presets.StorePreset n (to_string n);
            Presets.Cout ("Storing preset:" +:+ to_string n +:+ endl) ]
     else [ Presets.RecallPreset n;
            Presets.Cout ("Recalling preset:" +:+ to_string n +:+ endl) ]) /\
  to_string n = pretty n /\
  forall d : nat, (d < 10)%nat ->
    to_string (Z.of_nat d) = String (Ascii.ascii_of_nat (48 + d)) EmptyString.
Proof.
  intros n. split; [| split; [reflexivity | apply to_string_digit]].
  unfold Presets.onKeyDown. fold n. rewrite Hnumber.
  destruct (alt k); reflexivity.
Qed.

Lemma midi_freq_in_range (m : Z) :
  INT_MIN + 69 <= m <= INT_MAX ->
  midi_freq m =
  F32.mul f_440 (powf (F32.of_Z 2) (F32.div (F32.of_Z (m - 69)) f_12)).
Proof.
  intros Hm. unfold midi_freq, int_sub.
  rewrite wrap_int_id; [reflexivity |].
  unfold INT_MIN, INT_MAX in *. lia.
Qed.

(** C7. In the sequencer and the spatialization applications the voice
    onKeyDown hands to triggerOn has the oscillator frequency
    440 * 2^((m - 69)/12), evaluated in binary32 with libm's powf, where
    m is asciiToMIDI of the key; with a powf that is exact at exponent
    zero, m = 69 gives exactly 440. *)
Theorem onKeyDown_sets_midi_frequency (k : Keyboard)
    (Hint : INT_MIN + 69 <= asciiToMIDI (key k) <= INT_MAX)
    (Hpow : powf (F32.of_Z 2) (S754_zero false) = F32.of_Z 1) :
  let m := asciiToMIDI (key k) in
  let f := F32.mul f_440
             (powf (F32.of_Z 2) (F32.div (F32.of_Z (m - 69)) f_12)) in
  (forall app voice,
     exists voice',
       SequencerApp.onKeyDown k app voice =
         [SequencerApp.TriggerOn voice' 0 m] /\
       freq (Sequencer.mSource voice') = f) /\
  (forall app voice,
     exists voice',
       Spatialization.onKeyDown k app voice =
         [Spatialization.TriggerOn voice' 0 m
            (Spatialization.mSpatializer app)] /\
       freq (Spatialization.mSource voice') = f) /\
  (m = 69 -> f = f_440).
Proof.
  intros m f. split; [| split].
  - intros app voice. eexists. split; [reflexivity |].
    cbn. apply midi_freq_in_range, Hint.
  - intros app voice. eexists. split; [reflexivity |].
    cbn. apply midi_freq_in_range, Hint.
  - intros Hm. subst f. rewrite Hm. cbn [Z.sub Z.add Z.opp Z.pos_sub].
    change (F32.div (F32.of_Z (69 - 69)) f_12) with (S754_zero false).
    rewrite Hpow. vm_compute. reflexivity.
Qed.
End Keys.

Lemma onKeyDown_number_key_stores_or_recalls_witness :
  Presets.onKeyDown Demo.key_alt_7 (Demo.presets_app) =
    (Demo.presets_app,
     [ Presets.StorePreset 7 "7"; Presets.Cout ("Storing preset:7" +:+ endl) ])
  /\
  Presets.onKeyDown Demo.key_7 (Demo.presets_app) =
    (Demo.presets_app,
     [ Presets.RecallPreset 7; Presets.Cout ("Recalling preset:7" +:+ endl) ]).
Proof.
  split.
  - exact (proj1 (onKeyDown_number_key_stores_or_recalls
                    Demo.key_alt_7 (Demo.presets_app) eq_refl)).
  - exact (proj1 (onKeyDown_number_key_stores_or_recalls
                    Demo.key_7 (Demo.presets_app) eq_refl)).
Defined.

Lemma onKeyDown_sets_midi_frequency_witness :
  asciiToMIDI (key Demo.key_n) = 69 /\
  exists voice',
    SequencerApp.onKeyDown Demo.key_n
      Demo.seq_app
      Demo.voice = [SequencerApp.TriggerOn voice' 0 69] /\
    freq (Sequencer.mSource voice') = f_440.
Proof.
  split; [reflexivity |].
  assert (Hint : INT_MIN + 69 <= asciiToMIDI (key Demo.key_n) <= INT_MAX)
    by (vm_compute; split; discriminate).
  destruct (onKeyDown_sets_midi_frequency Demo.key_n Hint eq_refl)
    as (Hseq & _ & H69).
  destruct (Hseq
              Demo.seq_app
              Demo.voice) as (voice' & Hcall & Hfreq).
  exists voice'. split; [exact Hcall |].
  rewrite Hfreq. apply H69. reflexivity.
Defined.

(** ** Presets *)

Section Morph.
Context `{FW : Framework}.

Lemma onKeyDown_keeps_handler (k : Keyboard) (app : Presets.MyApp) :
  Presets.presetHandler (Presets.onKeyDown k app).1 =
  Presets.presetHandler app.
Proof.
  unfold Presets.onKeyDown.
  destruct (alt k), (isNumber k); try reflexivity.
  destruct (key k =? 32); [| reflexivity].
  destruct (uniformS (Presets.randomGenerator app)) as [x g1].
  destruct (uniformS g1) as [y g2].
  destruct (uniform g2) as [u g3]. reflexivity.
Qed.

Lemma step_keeps_handler (ev : Presets.Event) (app : Presets.MyApp) :
  Presets.presetHandler (Presets.step ev app).1 = Presets.presetHandler app.
Proof.
  destruct ev as [k |]; [apply onKeyDown_keeps_handler | reflexivity].
Qed.

Lemma handle_keeps_handler (evs : list Presets.Event) :
  forall app : Presets.MyApp,
    Presets.presetHandler (Presets.handle evs app).1 =
    Presets.presetHandler app.
Proof.
  induction evs as [| ev rest IH]; intros app; [reflexivity |].
  cbn [Presets.handle].
  pose proof (step_keeps_handler ev app) as Hstep.
  destruct (Presets.step ev app) as [app1 cs].
  specialize (IH app1).
  destruct (Presets.handle rest app1) as [app2 cs'].
  cbn [fst] in *. congruence.
Qed.

(** every recall of a run is logged by [recalls], in order *)
Lemma recalls_cover_the_calls (evs : list Presets.Event) :
  forall app : Presets.MyApp,
    omap Presets.recall_index (Presets.handle evs app).2 =
    map (fun r => r.1.1) (Presets.recalls evs app).
Proof.
  induction evs as [| ev rest IH]; intros app; [reflexivity |].
  cbn [Presets.handle Presets.recalls].
  destruct (Presets.step ev app) as [app1 cs].
  specialize (IH app1).
  destruct (Presets.handle rest app1) as [app2 cs'].
  cbn [snd] in *.
  rewrite omap_app, map_app, IH. f_equal.
  clear. induction cs as [| c cs IHcs]; [reflexivity |].
  destruct c; cbn; try exact IHcs. now rewrite <- IHcs.
Qed.

Lemma recalls_see_the_handler (evs : list Presets.Event) :
  forall app : Presets.MyApp,
    Forall (fun r => r.1.2 = Presets.morphTime (Presets.presetHandler app) /\
                     r.2 = Presets.parameters (Presets.presetHandler app))
           (Presets.recalls evs app).
Proof.
  induction evs as [| ev rest IH]; intros app; [constructor |].
  cbn [Presets.recalls].
  pose proof (step_keeps_handler ev app) as Hstep.
  destruct (Presets.step ev app) as [app1 cs]. cbn [fst] in Hstep.
  apply Forall_app. split.
  - clear. induction cs as [| c cs IHcs]; [constructor |].
    destruct c; cbn; try exact IHcs.
    constructor; [split; reflexivity | exact IHcs].
  - rewrite <- Hstep. apply IH.
Qed.

(** C8. onCreate leaves the preset handler with X, Y and Size registered
    and a morph time of 2.0, and itself stores or recalls no preset; no
    later key press or redraw changes the handler, so every recall that
    follows is made with morph time 2.0 over X, Y and Size. *)
Theorem onCreate_sets_morph_time_for_every_recall
    (t0 : float) (g : Random) (evs : list Presets.Event) :
  let created := Presets.onCreate (Presets.MyApp_new t0 g) in
  let two_seconds := F32.of_Z 2 in
  Presets.morphTime (Presets.presetHandler created.1) = two_seconds /\
  Presets.parameters (Presets.presetHandler created.1) =
    [Presets.pX; Presets.pY; Presets.pSize] /\
  List.filter Presets.is_preset_call created.2 = [] /\
  Presets.presetHandler (Presets.handle evs created.1).1 =
    Presets.presetHandler created.1 /\
  omap Presets.recall_index (Presets.handle evs created.1).2 =
    map (fun r => r.1.1) (Presets.recalls evs created.1) /\
  Forall (fun r => r.1.2 = two_seconds /\
                   r.2 = [Presets.pX; Presets.pY; Presets.pSize])
         (Presets.recalls evs created.1).
Proof.
  intros created two_seconds.
  split; [reflexivity |]. split; [reflexivity |]. split; [reflexivity |].
  split; [apply handle_keeps_handler |].
  split; [apply recalls_cover_the_calls |].
  exact (recalls_see_the_handler evs created.1).
Qed.
End Morph.

(** ** The space key *)

Section Randomize.
Context `{FW : Framework}.

Lemma onKeyDown_keeps_ranges (k : Keyboard) (app : Presets.MyApp) :
  Presets.ranges (Presets.onKeyDown k app).1 = Presets.ranges app.
Proof.
  unfold Presets.onKeyDown.
  destruct (alt k), (isNumber k); try reflexivity.
  destruct (key k =? 32); [| reflexivity].
  destruct (uniformS (Presets.randomGenerator app)) as [x g1].
  destruct (uniformS g1) as [y g2].
  destruct (uniform g2) as [u g3]. reflexivity.
Qed.

Lemma handle_keeps_ranges (evs : list Presets.Event) :
  forall app : Presets.MyApp,
    Presets.ranges (Presets.handle evs app).1 = Presets.ranges app.
Proof.
  induction evs as [| ev rest IH]; intros app; [reflexivity |].
  cbn [Presets.handle].
  assert (Hstep : Presets.ranges (Presets.step ev app).1 = Presets.ranges app).
  { destruct ev as [k |]; [apply onKeyDown_keeps_ranges | reflexivity]. }
  destruct (Presets.step ev app) as [app1 cs].
  specialize (IH app1).
  destruct (Presets.handle rest app1) as [app2 cs'].
  cbn [fst] in *. congruence.
Qed.

Lemma signed_unit_in_range (x : float) :
  value_in_co (Qmake (-1) 1) (Qmake 1 1) x ->
  value_in (Qmake (-1) 1) (Qmake 1 1) x /\
  float_le (F32.of_Z (-1)) x /\ float_le x (F32.of_Z 1).
Proof.
  intros (q & Hq & Hlo & Hhi).
  assert (Hhi' : Qle q (Qmake 1 1)) by now apply Qlt_le_weak.
  split; [| split].
  - exists q. auto.
  - eexists _, q. split; [reflexivity |]. split; [exact Hq |].
    eapply Qle_trans; [| exact Hlo]. vm_compute. discriminate.
  - exists q. eexists. split; [exact Hq |]. split; [reflexivity |].
    eapply Qle_trans; [exact Hhi' |]. vm_compute. discriminate.
Qed.

(** the space key without alt: the three draws, in order, and the
    application they leave *)
Lemma onKeyDown_space (k : Keyboard) (app : Presets.MyApp) :
  key k = 32 -> alt k = false -> isNumber k = false ->
  let dx := uniformS (Presets.randomGenerator app) in
  let dy := uniformS dx.2 in
  let du := uniform dy.2 in
  Presets.onKeyDown k app =
  ({| Presets.X := alParameter_assign dx.1 (Presets.X app);
      Presets.Y := alParameter_assign dy.1 (Presets.Y app);
      Presets.Size :=
        alParameter_assign (Presets.random_size du.1) (Presets.Size app);
      Presets.presetHandler := Presets.presetHandler app;
      Presets.randomGenerator := du.2 |},
   [ Presets.Assign Presets.pX dx.1; Presets.Assign Presets.pY dy.1;
     Presets.Assign Presets.pSize (Presets.random_size du.1) ]).
Proof.
  intros Hspace Halt Hnumber dx dy du.
  unfold Presets.onKeyDown. rewrite Halt, Hnumber, Hspace.
  change (32 =? 32) with true. cbv iota.
  subst du dy dx.
  destruct (uniformS (Presets.randomGenerator app)) as [x g1].
  cbn [fst snd].
  destruct (uniformS g1) as [y g2]. cbn [fst snd].
  destruct (uniform g2) as [u g3]. reflexivity.
Qed.

(** C10. A press of the space key without alt, at any point after
    onCreate: if the two uniformS() draws are floats in [-1, 1) and the
    uniform() draw is a float in [0, 1), then X and Y are assigned
    values in [-1, 1] and Size the float 0.1 + u * 2.0, which lies in
    [0.1, 2.1]; each value is within the range declared for its
    parameter, and Size stays below its declared maximum 3.0.  After
    the press X, Y and Size hold exactly these values, under their
    names and declared ranges as before, the preset handler is as it
    was and the generator is the one the three draws leave. *)
Theorem onKeyDown_space_assigns_within_ranges
    (t0 : float) (g : Random) (evs : list Presets.Event) (k : Keyboard)
    (Hspace : key k = 32) (Halt : alt k = false)
    (Hnumber : isNumber k = false) :
  let app :=
    (Presets.handle evs (Presets.onCreate (Presets.MyApp_new t0 g)).1).1 in
  let dx := uniformS (Presets.randomGenerator app) in
  let dy := uniformS dx.2 in
  let du := uniform dy.2 in
  value_in_co (Qmake (-1) 1) (Qmake 1 1) dx.1 ->
  value_in_co (Qmake (-1) 1) (Qmake 1 1) dy.1 ->
  F32.valid du.1 = true ->
  value_in_co (Qmake 0 1) (Qmake 1 1) du.1 ->
  let size := Presets.random_size du.1 in
  let app' := (Presets.onKeyDown k app).1 in
  (Presets.onKeyDown k app).2 =
    [ Presets.Assign Presets.pX dx.1; Presets.Assign Presets.pY dy.1;
      Presets.Assign Presets.pSize size ] /\
  Presets.ranges app =
    [ (F32.of_Z (-1), F32.of_Z 1); (F32.of_Z (-1), F32.of_Z 1);
      (F32.div (F32.of_Z 1) (F32.of_Z 10), F32.of_Z 3) ] /\
  value_in (Qmake (-1) 1) (Qmake 1 1) dx.1 /\
  value_in (Qmake (-1) 1) (Qmake 1 1) dy.1 /\
  value_in (Qmake 1 10) (Qmake 21 10) size /\
  (float_le (p_min (Presets.X app)) dx.1 /\
   float_le dx.1 (p_max (Presets.X app))) /\
  (float_le (p_min (Presets.Y app)) dy.1 /\
   float_le dy.1 (p_max (Presets.Y app))) /\
  (float_le (p_min (Presets.Size app)) size /\
   float_lt size (p_max (Presets.Size app))) /\
  Presets.X app' =
    {| p_name := p_name (Presets.X app); p_group := p_group (Presets.X app);
       value := dx.1;
       p_min := p_min (Presets.X app); p_max := p_max (Presets.X app) |} /\
  Presets.Y app' =
    {| p_name := p_name (Presets.Y app); p_group := p_group (Presets.Y app);
       value := dy.1;
       p_min := p_min (Presets.Y app); p_max := p_max (Presets.Y app) |} /\
  Presets.Size app' =
    {| p_name := p_name (Presets.Size app);
       p_group := p_group (Presets.Size app);
       value := size;
       p_min := p_min (Presets.Size app);
       p_max := p_max (Presets.Size app) |} /\
  Presets.ranges app' = Presets.ranges app /\
  (float_le (p_min (Presets.X app')) (value (Presets.X app')) /\
   float_le (value (Presets.X app')) (p_max (Presets.X app'))) /\
  (float_le (p_min (Presets.Y app')) (value (Presets.Y app')) /\
   float_le (value (Presets.Y app')) (p_max (Presets.Y app'))) /\
  (float_le (p_min (Presets.Size app')) (value (Presets.Size app')) /\
   float_lt (value (Presets.Size app')) (p_max (Presets.Size app'))) /\
  Presets.presetHandler app' = Presets.presetHandler app /\
  Presets.randomGenerator app' = du.2.
Proof.
  intros app dx dy du Hx Hy Hvu Hu size app'.
  assert (Hr : Presets.ranges app =
               [ (F32.of_Z (-1), F32.of_Z 1); (F32.of_Z (-1), F32.of_Z 1);
                 (F32.div (F32.of_Z 1) (F32.of_Z 10), F32.of_Z 3) ]).
  { unfold app. rewrite handle_keeps_ranges. reflexivity. }
  pose proof Hr as Hr'. unfold Presets.ranges in Hr'.
  injection Hr' as HXmin HXmax HYmin HYmax HSmin HSmax.
  pose proof (onKeyDown_space k app Hspace Halt Hnumber) as Hkey.
  cbn zeta in Hkey. fold dx dy du size in Hkey.
  subst app'. rewrite Hkey. cbn [fst snd].
  cbn [Presets.X Presets.Y Presets.Size Presets.presetHandler
       Presets.randomGenerator Presets.ranges alParameter_assign
       p_min p_max value].
  destruct (signed_unit_in_range _ Hx) as (Vx & Lx & Ux).
  destruct (signed_unit_in_range _ Hy) as (Vy & Ly & Uy).
  destruct (random_size_in_range _ Hvu Hu) as (Vs & Ls & Us).
  repeat match goal with |- _ /\ _ => split end;
    try reflexivity; try assumption;
    rewrite ?HXmin, ?HXmax, ?HYmin, ?HYmax, ?HSmin, ?HSmax; assumption.
Qed.

End Randomize.

Lemma onKeyDown_space_assigns_within_ranges_witness :
  let app := (Presets.onCreate Demo.presets_app).1 in
  let dx := uniformS (Presets.randomGenerator app) in
  let dy := uniformS dx.2 in
  let du := uniform dy.2 in
  let app' := (Presets.onKeyDown Demo.key_space app).1 in
  (Presets.onKeyDown Demo.key_space app).2 =
    [ Presets.Assign Presets.pX dx.1; Presets.Assign Presets.pY dy.1;
      Presets.Assign Presets.pSize (Presets.random_size du.1) ] /\
  value_in (Qmake 1 10) (Qmake 21 10) (Presets.random_size du.1) /\
  float_lt (Presets.random_size du.1) (F32.of_Z 3) /\
  value (Presets.X app') = dx.1 /\
  value (Presets.Y app') = dy.1 /\
  value (Presets.Size app') = Presets.random_size du.1 /\
  Presets.randomGenerator app' = du.2.
Proof.
  intros app dx dy du app'.
  assert (Hx : value_in_co (Qmake (-1) 1) (Qmake 1 1) dx.1).
  { eexists. split; [reflexivity |].
    split; [vm_compute; discriminate | vm_compute; reflexivity]. }
  assert (Hy : value_in_co (Qmake (-1) 1) (Qmake 1 1) dy.1).
  { eexists. split; [reflexivity |].
    split; [vm_compute; discriminate | vm_compute; reflexivity]. }
  assert (Hv : F32.valid du.1 = true) by (vm_compute; reflexivity).
  assert (Hu : value_in_co (Qmake 0 1) (Qmake 1 1) du.1).
  { eexists. split; [reflexivity |].
    split; [vm_compute; discriminate | vm_compute; reflexivity]. }
  destruct (onKeyDown_space_assigns_within_ranges (FW := Demo.framework)
              (F32.of_Z 0) 2024 [] Demo.key_space
              eq_refl eq_refl eq_refl Hx Hy Hv Hu)
    as (Hcalls & _ & _ & _ & Hsize & _ & _ & [_ Hmax] & HX & HY & HS & _ & _
        & _ & _ & _ & Hg).
  split; [exact Hcalls |]. split; [exact Hsize |]. split; [exact Hmax |].
  split; [exact (f_equal value HX) |].
  split; [exact (f_equal value HY) |].
  split; [exact (f_equal value HS) |].
  exact Hg.
Defined.

(** * Further properties *)

(** ** Blocks, once more *)

Section MoreBlocks.
Context `{FW : Framework}.

(** the frames of a block, as the sequencer voice leaves output 0 *)
Lemma seq_block (n : nat) :
  forall (cur : nat) (v : Sequencer.MyVoice) (out : list float),
    let r := while_io SequencerApp.onProcess_frame n cur (v, out) in
    Sequencer.mSource (fst r) = Sine_after n (Sequencer.mSource v)
    /\ Sequencer.mX (fst r) = Sequencer.mX v
    /\ Sequencer.mY (fst r) = Sequencer.mY v
    /\ Sequencer.mSize (fst r) = Sequencer.mSize v
    /\ length (snd r) = length out
    /\ (forall i, (i < cur)%nat -> snd r !! i = out !! i)
    /\ (forall i, (cur + n <= i)%nat -> snd r !! i = out !! i)
    /\ (forall i, (i < n)%nat ->
          snd r !! (cur + i)%nat =
          (fun o => F32.of_double
                      (F64.add (F64.of_float o)
                         (scaled_sample (AD_sample i (Sequencer.mEnvelope v))
                                        (Sine_sample i (Sequencer.mSource v)))))
            <$> out !! (cur + i)%nat).
Proof.
  induction n as [| n IH]; intros cur v out r.
  - subst r. cbn. repeat split; try reflexivity. intros i Hi. lia.
  - subst r. cbn [while_io]. rewrite seq_frame_unfold.
    match goal with
    | |- context [while_io _ n (S cur) (?v1, ?b1)] =>
        specialize (IH (S cur) v1 b1);
        set (r := while_io _ n (S cur) (v1, b1)) in *
    end.
    cbn zeta in IH.
    destruct IH as (Hsrc & Hx & Hy & Hsz & Hlen & Hlo & Hhi & Hmid).
    cbn [Sequencer.mEnvelope Sequencer.mSource Sequencer.mX Sequencer.mY
         Sequencer.mSize] in *.
    rewrite length_alter in Hlen.
    split; [rewrite Hsrc; apply Sine_after_succ |].
    do 4 (split; [assumption |]).
    split; [| split].
    + intros i Hi. rewrite Hlo by lia.
      apply list_lookup_alter_ne. lia.
    + intros i Hi. rewrite Hhi by lia.
      apply list_lookup_alter_ne. lia.
    + intros [| i] Hi.
      * rewrite Nat.add_0_r. rewrite Hlo by lia.
        apply list_lookup_alter_eq.
      * replace (cur + S i)%nat with (S cur + i)%nat by lia.
        rewrite Hmid by lia.
        rewrite list_lookup_alter_ne by lia.
        unfold AD_sample, Sine_sample. cbn.
        now rewrite AD_after_succ, Sine_after_succ.
Qed.

(** X1. A block draws one oscillator sample and one envelope value for
    every frame from the cursor to the end of the block, in both
    voices, and changes nothing else of the voice: not x, y and size of
    the sequencer voice, not pose, size and user data of the spatialized
    one. *)
Theorem onProcess_draws_one_sample_per_frame (io : AudioIOData) :
  (forall v : Sequencer.MyVoice,
     let v' := (SequencerApp.onProcess v io).1.1 in
     let n := (framesPerBuffer io - frame io)%nat in
     Sequencer.mSource v' = Sine_after n (Sequencer.mSource v) /\
     Sequencer.mEnvelope v' = AD_after n (Sequencer.mEnvelope v) /\
     Sequencer.mX v' = Sequencer.mX v /\
     Sequencer.mY v' = Sequencer.mY v /\
     Sequencer.mSize v' = Sequencer.mSize v) /\
  (forall v : Spatialization.MyVoice,
     let v' := (Spatialization.onProcess v io).1.1 in
     let n := (framesPerBuffer io - frame io)%nat in
     Spatialization.mSource v' = Sine_after n (Spatialization.mSource v) /\
     Spatialization.mEnvelope v' = AD_after n (Spatialization.mEnvelope v) /\
     Spatialization.mPose v' = Spatialization.mPose v /\
     Spatialization.mSize v' = Spatialization.mSize v /\
     Spatialization.userData v' = Spatialization.userData v).
Proof.
  split; intros v v' n.
  - pose proof (seq_block n (frame io) v (outBuffer0 io)) as H.
    pose proof (seq_block_envelope n (frame io) v (outBuffer0 io)) as He.
    cbn zeta in H. destruct H as (Hsrc & Hx & Hy & Hsz & _).
    subst v'. unfold SequencerApp.onProcess. fold n.
    destruct (while_io _ _ _ _) as [v1 out]. cbn in *. auto.
  - assert (H : forall (m cur : nat) (w : Spatialization.MyVoice) bus,
               let r := while_io Spatialization.onProcess_frame m cur (w, bus) in
               Spatialization.mSource (fst r) =
                 Sine_after m (Spatialization.mSource w) /\
               Spatialization.mSize (fst r) = Spatialization.mSize w).
    { clear. induction m as [| m IH]; intros cur w bus r.
      - split; reflexivity.
      - subst r. cbn [while_io]. rewrite spat_frame_unfold.
        match goal with
        | |- context [while_io _ m (S cur) (?v1, ?b1)] =>
            specialize (IH (S cur) v1 b1)
        end.
        cbn zeta in IH. destruct IH as [Hs Hz]. cbn in *.
        rewrite Hs, Hz. split; [apply Sine_after_succ | reflexivity]. }
    specialize (H n (frame io) v (busBuffer0 io)).
    pose proof (spat_block n (frame io) v (busBuffer0 io)) as B.
    cbn zeta in H, B. destruct H as [Hsrc Hsz].
    destruct B as (Henv & Hpose & Hud & _).
    subst v'. unfold Spatialization.onProcess. fold n.
    destruct (while_io _ _ _ _) as [v1 bus]. cbn in *. auto.
Qed.

(** X2. The sequencer voice adds to output channel 0: after a block,
    every frame from the cursor to the end of the block holds what it
    held before plus envelope * sine * 0.05 of that frame (the sum
    taken in double and narrowed to float), every other frame holds
    what it held, and bus 0 is untouched. *)
Theorem seq_onProcess_adds_to_output (v : Sequencer.MyVoice)
    (io : AudioIOData) :
  let io' := (SequencerApp.onProcess v io).1.2 in
  framesPerBuffer io' = framesPerBuffer io /\
  busBuffer0 io' = busBuffer0 io /\
  length (outBuffer0 io') = length (outBuffer0 io) /\
  (forall i, (frame io <= i < framesPerBuffer io)%nat ->
     outBuffer0 io' !! i =
     (fun o => F32.of_double
                 (F64.add (F64.of_float o)
                    (scaled_sample
                       (AD_sample (i - frame io) (Sequencer.mEnvelope v))
                       (Sine_sample (i - frame io) (Sequencer.mSource v)))))
       <$> outBuffer0 io !! i) /\
  (forall i, ~ (frame io <= i < framesPerBuffer io)%nat ->
     outBuffer0 io' !! i = outBuffer0 io !! i).
Proof.
  intros io'.
  pose proof (seq_block (framesPerBuffer io - frame io) (frame io) v
                (outBuffer0 io)) as H.
  cbn zeta in H. destruct H as (_ & _ & _ & _ & Hlen & Hlo & Hhi & Hmid).
  subst io'. unfold SequencerApp.onProcess in *.
  destruct (while_io _ _ _ _) as [v1 out]. cbn in *.
  split; [reflexivity |]. split; [reflexivity |]. split; [exact Hlen |].
  split.
  - intros i Hi.
    specialize (Hmid (i - frame io)%nat ltac:(lia)).
    replace (frame io + (i - frame io))%nat with i in Hmid by lia.
    exact Hmid.
  - intros i Hi.
    destruct (Nat.lt_ge_cases i (frame io)) as [Hl | Hg].
    + apply Hlo. exact Hl.
    + apply Hhi. lia.
Qed.
End MoreBlocks.

(** ** The p-fields, once more *)

Section MoreParamFields.
Context `{FW : Framework}.

(** X3. Whatever the count, setParamFields leaves the oscillator's
    phase and the second length of the envelope, the release of the
    note, as they were, in both voices; the spatialized voice also
    keeps its user data. *)
Theorem setParamFields_writes_only_its_fields
    (pFields : cells) (numFields : Z) :
  (forall v : Sequencer.MyVoice,
     let v' := (Sequencer.setParamFields pFields numFields v).2 in
     phase (Sequencer.mSource v') = phase (Sequencer.mSource v) /\
     snd (lengths (Sequencer.mEnvelope v')) =
       snd (lengths (Sequencer.mEnvelope v))) /\
  (forall v : Spatialization.MyVoice,
     let v' := (Spatialization.setParamFields pFields numFields v).2 in
     phase (Spatialization.mSource v') = phase (Spatialization.mSource v) /\
     snd (lengths (Spatialization.mEnvelope v')) =
       snd (lengths (Spatialization.mEnvelope v)) /\
     Spatialization.userData v' = Spatialization.userData v).
Proof.
  split; intros v v'; subst v'.
  - unfold Sequencer.setParamFields.
    destruct (negb (numFields =? 6)); cbn; repeat split.
  - unfold Spatialization.setParamFields.
    destruct (negb (numFields =? 6)); cbn; repeat split.
Qed.

(** X4. Reading the p-fields of a voice that was just given six fields
    returns the first five of them: setParamFields followed by
    getParamFields writes pFields[0..4] back, into whatever cells it is
    handed.  The sixth cell gets what lengths()[2] yields after the
    write to lengths()[2], both past the two lengths of the envelope.
    In the spatialized voice x and y make the trip through the doubles
    of the Pose, which needs pFields[0] and pFields[1] to be floats. *)
Theorem getParamFields_after_setParamFields
    (pFields buffer : cells) (v : Sequencer.MyVoice)
    (vs : Spatialization.MyVoice)
    (Hx : F32.valid (pFields 0%nat) = true)
    (Hy : F32.valid (pFields 1%nat) = true) :
  (let got := (Sequencer.getParamFields buffer
                 (Sequencer.setParamFields pFields 6 v).2).2 in
   map got (seq 0 5) = map pFields (seq 0 5) /\
   got 5%nat =
     env_past_load 0
       (env_past_store 0 (pFields 5%nat) (stage (Sequencer.mEnvelope v)))) /\
  (let got := (Spatialization.getParamFields buffer
                 (Spatialization.setParamFields pFields 6 vs).2).2 in
   map got (seq 0 5) = map pFields (seq 0 5) /\
   got 5%nat =
     env_past_load 0
       (env_past_store 0 (pFields 5%nat)
          (stage (Spatialization.mEnvelope vs)))).
Proof.
  split; [split; reflexivity |].
  split; [| reflexivity].
  cbn. rewrite !of_double_of_float by assumption. reflexivity.
Qed.

(** X5. The p-fields read from one voice and given to another carry
    five of the six parameters over: x, y, size, frequency and attack
    length of the second voice become those of the first.  The release
    length does not travel: the second voice keeps its own.  For the
    spatialized voice the first one's position is to hold promoted
    floats, as [set] leaves it. *)
Theorem param_fields_carry_over
    (buffer : cells) (v w : Sequencer.MyVoice)
    (vs ws : Spatialization.MyVoice)
    (Hpose : Spatialization.pose_of_floats vs) :
  (let got := Sequencer.getParamFields buffer v in
   Sequencer.params (Sequencer.setParamFields got.2 got.1 w).2 =
   take 5 (Sequencer.params v) ++ [snd (lengths (Sequencer.mEnvelope w))]) /\
  (let got := Spatialization.getParamFields buffer vs in
   Spatialization.params (Spatialization.setParamFields got.2 got.1 ws).2 =
   take 5 (Spatialization.params vs) ++
     [snd (lengths (Spatialization.mEnvelope ws))] /\
   Spatialization.pose_of_floats
     (Spatialization.setParamFields got.2 got.1 ws).2).
Proof.
  split; [reflexivity |].
  destruct Hpose as (x & y & Hx & Hy & Ex & Ey).
  cbn zeta. split.
  - unfold Spatialization.params. cbn.
    rewrite Ex, Ey, !of_double_of_float by assumption. reflexivity.
  - exists x, y. cbn.
    rewrite Ex, Ey, !of_double_of_float by assumption. auto.
Qed.

(** X6. The voice a key press triggers carries the values of X, Y,
    Size, the key's frequency and AttackTime as its position, size,
    frequency and attack length.  The value of ReleaseTime does not
    reach the release length, which stays that of the voice handed out
    (0.5f in a voice as constructed): it is written past the two
    lengths of the envelope.  In the spatialization application X and Y
    are promoted into the Pose, z is 0, and the position is one of
    promoted floats as soon as X and Y hold floats. *)
Theorem onKeyDown_hands_over_the_parameters (k : Keyboard) :
  (forall (app : SequencerApp.MyApp) (voice : Sequencer.MyVoice),
     exists voice',
       SequencerApp.onKeyDown k app voice =
         [SequencerApp.TriggerOn voice' 0 (asciiToMIDI (key k))] /\
       Sequencer.params voice' =
         [ value (SequencerApp.X app); value (SequencerApp.Y app);
           value (SequencerApp.Size app); midi_freq (asciiToMIDI (key k));
           value (SequencerApp.AttackTime app);
           snd (lengths (Sequencer.mEnvelope voice)) ] /\
       stage (Sequencer.mEnvelope voice') =
         env_past_store 0 (value (SequencerApp.ReleaseTime app))
           (stage (Sequencer.mEnvelope voice))) /\
  (forall (app : Spatialization.MyApp) (voice : Spatialization.MyVoice),
     exists voice',
       Spatialization.onKeyDown k app voice =
         [Spatialization.TriggerOn voice' 0 (asciiToMIDI (key k))
            (Spatialization.mSpatializer app)] /\
       Spatialization.params voice' =
         [ F64.of_float (value (Spatialization.X app));
           F64.of_float (value (Spatialization.Y app));
           value (Spatialization.Size app); midi_freq (asciiToMIDI (key k));
           value (Spatialization.AttackTime app);
           snd (lengths (Spatialization.mEnvelope voice)) ] /\
       stage (Spatialization.mEnvelope voice') =
         env_past_store 0 (value (Spatialization.ReleaseTime app))
           (stage (Spatialization.mEnvelope voice)) /\
       pos_z (Spatialization.mPose voice') = S754_zero false /\
       Spatialization.userData voice' = Spatialization.userData voice /\
       (F32.valid (value (Spatialization.X app)) = true ->
        F32.valid (value (Spatialization.Y app)) = true ->
        Spatialization.pose_of_floats voice')) /\
  (forall (app : SequencerApp.MyApp) (apps : Spatialization.MyApp)
          (source : Sine) (envelope : AD) (data : nat),
     exists voice' voices',
       SequencerApp.onKeyDown k app
           (Sequencer.MyVoice_new source envelope) =
         [SequencerApp.TriggerOn voice' 0 (asciiToMIDI (key k))] /\
       snd (lengths (Sequencer.mEnvelope voice')) =
         F32.div (F32.of_Z 5) (F32.of_Z 10) /\
       Spatialization.onKeyDown k apps
           (Spatialization.MyVoice_new source envelope data) =
         [Spatialization.TriggerOn voices' 0 (asciiToMIDI (key k))
            (Spatialization.mSpatializer apps)] /\
       snd (lengths (Spatialization.mEnvelope voices')) =
         F32.div (F32.of_Z 5) (F32.of_Z 10)).
Proof.
  split; [| split].
  - intros app voice. eexists. repeat split; reflexivity.
  - intros app voice. eexists. split; [reflexivity |].
    split; [reflexivity |]. split; [reflexivity |].
    split; [reflexivity |]. split; [reflexivity |].
    intros Hx Hy. now apply set_pose_of_floats.
  - intros app apps source envelope data. do 2 eexists.
    repeat split; reflexivity.
Qed.

(** X7. A key release turns off the note its press turned on: onKeyUp
    passes to triggerOff the id onKeyDown passed to triggerOn, for any
    two keyboard states with the same key code, whatever their
    modifiers, in both applications. *)
Theorem onKeyUp_matches_onKeyDown (down up : Keyboard)
    (Hkey : key down = key up) :
  (forall (app : SequencerApp.MyApp) (voice : Sequencer.MyVoice),
     exists voice',
       SequencerApp.onKeyDown down app voice =
         [SequencerApp.TriggerOn voice' 0 (asciiToMIDI (key down))] /\
       SequencerApp.onKeyUp up app =
         [SequencerApp.TriggerOff (asciiToMIDI (key down))]) /\
  (forall (app : Spatialization.MyApp) (voice : Spatialization.MyVoice),
     exists voice' data,
       Spatialization.onKeyDown down app voice =
         [Spatialization.TriggerOn voice' 0 (asciiToMIDI (key down)) data] /\
       Spatialization.onKeyUp up app =
         [Spatialization.TriggerOff (asciiToMIDI (key down))]).
Proof.
  split; intros app voice.
  - eexists. split; [reflexivity |].
    unfold SequencerApp.onKeyUp. now rewrite Hkey.
  - do 2 eexists. split; [reflexivity |].
    unfold Spatialization.onKeyUp. now rewrite Hkey.
Qed.
End MoreParamFields.

Lemma getParamFields_after_setParamFields_witness :
  map (Spatialization.getParamFields (fun _ => F32.of_Z 0)
         (Spatialization.setParamFields Demo.pFields 6 Demo.spat_voice).2).2
      (seq 0 5) =
  [ F32.of_Z 1; F32.of_Z 2; F32.of_Z 3; F32.of_Z 4; F32.of_Z 5 ].
Proof.
  exact (proj1 (proj2 (getParamFields_after_setParamFields
                         Demo.pFields (fun _ => F32.of_Z 0) Demo.voice
                         Demo.spat_voice eq_refl eq_refl))).
Defined.

Lemma param_fields_carry_over_witness :
  Spatialization.params
    (Spatialization.setParamFields
       (Spatialization.getParamFields Demo.pFields Demo.spat_voice).2 6
       (Spatialization.MyVoice_new Demo.sine Demo.envelope 0)).2 =
  take 5 (Spatialization.params Demo.spat_voice) ++
    [F32.div (F32.of_Z 5) (F32.of_Z 10)].
Proof.
  assert (Hpose : Spatialization.pose_of_floats Demo.spat_voice).
  { exists (F32.div (F32.of_Z 1) (F32.of_Z 3)), (F32.of_Z (-1)).
    repeat split; reflexivity. }
  exact (proj1 (proj2 (param_fields_carry_over
                         Demo.pFields Demo.voice Demo.voice Demo.spat_voice
                         (Spatialization.MyVoice_new Demo.sine Demo.envelope 0)
                         Hpose))).
Defined.

Lemma onKeyUp_matches_onKeyDown_witness :
  exists voice',
    SequencerApp.onKeyDown Demo.key_n Demo.seq_app Demo.voice =
      [SequencerApp.TriggerOn voice' 0 69] /\
    SequencerApp.onKeyUp
      {| key := 110; alt := true; isNumber := false; keyAsNumber := 62 |}
      Demo.seq_app = [SequencerApp.TriggerOff 69].
Proof.
  destruct (proj1 (onKeyUp_matches_onKeyDown Demo.key_n
                     {| key := 110; alt := true; isNumber := false;
                        keyAsNumber := 62 |} eq_refl)
              Demo.seq_app Demo.voice) as (voice' & Hdown & Hup).
  exists voice'. split; [exact Hdown | exact Hup].
Defined.

(** ** Keys of the presets application *)

Section MoreKeys.
Context `{FW : Framework}.

(** X8. onKeyDown of the presets application makes no call exactly for
    the keys that are no number and are either pressed with alt or not
    the space key; in particular alt with space does not randomize.
    Such a key leaves the application as it was: parameters, preset
    handler and random generator. *)
Theorem onKeyDown_inert_keys (k : Keyboard) (app : Presets.MyApp) :
  ((Presets.onKeyDown k app).2 = [] <->
   isNumber k = false /\ (alt k = true \/ key k <> 32)) /\
  ((Presets.onKeyDown k app).2 = [] ->
   (Presets.onKeyDown k app).1 = app).
Proof.
  unfold Presets.onKeyDown.
  destruct (alt k) eqn:Ealt, (isNumber k) eqn:Enum; cbn [fst snd].
  - split; [| discriminate].
    split; [discriminate | intros [H _]; discriminate H].
  - split; [| reflexivity].
    split; [intros _; split; [reflexivity | now left] | reflexivity].
  - split; [| discriminate].
    split; [discriminate | intros [H _]; discriminate H].
  - destruct (Z.eqb_spec (key k) 32) as [E | NE].
    + destruct (uniformS (Presets.randomGenerator app)) as [x g1].
      destruct (uniformS g1) as [y g2].
      destruct (uniform g2) as [u g3]. cbn [fst snd].
      split; [| discriminate].
      split; [discriminate |].
      intros [_ [H | H]]; [discriminate H | contradiction].
    + split; [| reflexivity].
      split; [intros _; split; [reflexivity | now right] | reflexivity].
Qed.

Lemma onKeyDown_preset_call (k : Keyboard) (app : Presets.MyApp) :
  omap Presets.preset_of_call (Presets.onKeyDown k app).2 =
  option_list (Presets.preset_of_event (Presets.KeyDown k)).
Proof.
  unfold Presets.onKeyDown, Presets.preset_of_event.
  destruct (alt k), (isNumber k); try reflexivity.
  destruct (key k =? 32); [| reflexivity].
  destruct (uniformS (Presets.randomGenerator app)) as [x g1].
  destruct (uniformS g1) as [y g2].
  destruct (uniform g2) as [u g3]. reflexivity.
Qed.

Lemma handle_preset_calls (evs : list Presets.Event) :
  forall app : Presets.MyApp,
    omap Presets.preset_of_call (Presets.handle evs app).2 =
    omap Presets.preset_of_event evs.
Proof.
  induction evs as [| ev rest IH]; intros app; [reflexivity |].
  cbn [Presets.handle].
  assert (Hstep : omap Presets.preset_of_call (Presets.step ev app).2 =
                  option_list (Presets.preset_of_event ev)).
  { destruct ev as [k |]; [apply onKeyDown_preset_call | reflexivity]. }
  destruct (Presets.step ev app) as [app1 cs].
  specialize (IH app1).
  destruct (Presets.handle rest app1) as [app2 cs'].
  cbn [snd] in *. rewrite omap_app, Hstep, IH.
  change (omap Presets.preset_of_event (ev :: rest)) with
    (match Presets.preset_of_event ev with
     | Some c => c :: omap Presets.preset_of_event rest
     | None => omap Presets.preset_of_event rest
     end).
  destruct (Presets.preset_of_event ev); reflexivity.
Qed.

(** X9. Over a whole run of the presets application, onCreate and then
    any key presses and redraws, the stores and recalls the preset
    handler is asked for are those of the number keys pressed, one for
    each and in the order of the presses: a store when alt was held, a
    recall otherwise, with the key's number as index. *)
Theorem run_preset_calls_follow_number_keys
    (t0 : float) (g : Random) (evs : list Presets.Event) :
  omap Presets.preset_of_call (Presets.run t0 g evs).2 =
  omap Presets.preset_of_event evs.
Proof.
  unfold Presets.run.
  pose proof (handle_preset_calls evs
                (Presets.onCreate (Presets.MyApp_new t0 g)).1) as H.
  destruct (Presets.onCreate (Presets.MyApp_new t0 g)) as [app1 cs] eqn:E.
  assert (Hcs : omap Presets.preset_of_call cs = []).
  { injection E as _ <-. reflexivity. }
  cbn [fst] in H.
  destruct (Presets.handle evs app1) as [app2 cs'].
  cbn [snd] in *. now rewrite omap_app, Hcs, H.
Qed.

(** X10. Two number keys pressed with alt store their presets under the
    same name exactly when they store them under the same index: the
    decimal names of distinct numbers differ. *)
Theorem stored_names_tell_indices_apart
    (k1 k2 : Keyboard) (app1 app2 : Presets.MyApp)
    (Halt1 : alt k1 = true) (Hnumber1 : isNumber k1 = true)
    (Halt2 : alt k2 = true) (Hnumber2 : isNumber k2 = true) :
  exists name1 name2 rest1 rest2,
    (Presets.onKeyDown k1 app1).2 =
      Presets.StorePreset (keyAsNumber k1) name1 :: rest1 /\
    (Presets.onKeyDown k2 app2).2 =
      Presets.StorePreset (keyAsNumber k2) name2 :: rest2 /\
    (name1 = name2 <-> keyAsNumber k1 = keyAsNumber k2).
Proof.
  unfold Presets.onKeyDown. rewrite Halt1, Hnumber1, Halt2, Hnumber2.
  do 4 eexists. split; [reflexivity |]. split; [reflexivity |].
  unfold to_string. split; [apply pretty_Z_inj | congruence].
Qed.
End MoreKeys.

Lemma stored_names_tell_indices_apart_witness :
  exists name1 name2 rest1 rest2,
    (Presets.onKeyDown Demo.key_alt_7 Demo.presets_app).2 =
      Presets.StorePreset 7 name1 :: rest1 /\
    (Presets.onKeyDown
       {| key := 51; alt := true; isNumber := true; keyAsNumber := 3 |}
       Demo.presets_app).2 =
      Presets.StorePreset 3 name2 :: rest2 /\
    (name1 = name2 <-> 7 = 3).
Proof.
  exact (stored_names_tell_indices_apart
           Demo.key_alt_7
           {| key := 51; alt := true; isNumber := true; keyAsNumber := 3 |}
           Demo.presets_app Demo.presets_app eq_refl eq_refl eq_refl eq_refl).
Defined.

(** ** Magnitudes

    The product of two valid floats is rounded from an aligned
    mantissa, so its magnitude is the rounding of the product of the
    magnitudes; conversions between the formats keep a bound that the
    narrower format holds. *)

Lemma mul_aligned (prec emax : Z) (mx my : positive) (ex ey : Z) :
  0 < prec -> emin prec emax <= 0 ->
  bounded prec emax mx ex = true -> bounded prec emax my ey = true ->
  ex + ey <= fexp prec emax (Zpos (digits2_pos (mx * my)) + (ex + ey)).
Proof.
  intros Hprec Hemin Hx Hy.
  apply andb_prop in Hx as [Hx _]. apply andb_prop in Hy as [Hy _].
  unfold canonical_mantissa in *. apply Z.eqb_eq in Hx, Hy.
  rewrite digits2_log2 in *. rewrite Pos2Z.inj_mul.
  pose proof (Z.log2_mul_below (Zpos mx) (Zpos my) ltac:(lia) ltac:(lia)).
  pose proof (Z.log2_nonneg (Zpos mx)). pose proof (Z.log2_nonneg (Zpos my)).
  unfold fexp in *. lia.
Qed.

Lemma mul_finite_magnitude (prec emax : Z) (sx sy : bool) (mx my : positive)
    (ex ey : Z) (A B C : Z) :
  0 < prec -> prec < emax -> - SHIFT <= emin prec emax ->
  emin prec emax <= 0 -> - SHIFT <= ex + ey ->
  bounded prec emax mx ex = true -> bounded prec emax my ey = true ->
  Zpos mx * 2 ^ (ex + SHIFT) <= A -> Zpos my * 2 ^ (ey + SHIFT) <= B ->
  A * B <= C * 2 ^ SHIFT ->
  rnd prec emax SHIFT C < 2 ^ (emax + SHIFT) ->
  magnitude_le prec emax (rnd prec emax SHIFT C)
    (SFmul prec emax (S754_finite sx mx ex) (S754_finite sy my ey)).
Proof.
  intros Hprec Hemax HK Hemin Hsum Hbx Hby HA HB HC Hfit.
  pose proof (mul_aligned prec emax mx my ex ey Hprec Hemin Hbx Hby) as Hal.
  destruct (bounded_inv prec emax mx ex Hprec Hbx) as [_ [Hex _]].
  destruct (bounded_inv prec emax my ey Hprec Hby) as [_ [Hey _]].
  cbn [SFmul].
  pose proof (round_aux_rnd prec emax Hprec Hemax SHIFT HK (xorb sx sy)
                (mx * my) (ex + ey) Hsum Hal) as H.
  set (V := Zpos (mx * my) * 2 ^ (ex + ey + SHIFT)) in *.
  assert (HS : 0 < 2 ^ SHIFT) by (apply Z.pow_pos_nonneg; unfold SHIFT; lia).
  assert (Hpx : 0 < 2 ^ (ex + SHIFT)) by (apply Z.pow_pos_nonneg; lia).
  assert (Hpy : 0 < 2 ^ (ey + SHIFT)) by (apply Z.pow_pos_nonneg; lia).
  assert (Hpv : 0 < 2 ^ (ex + ey + SHIFT)) by (apply Z.pow_pos_nonneg; lia).
  assert (Hsplit : 2 ^ (ex + ey + SHIFT) * 2 ^ SHIFT =
                   2 ^ (ex + SHIFT) * 2 ^ (ey + SHIFT)).
  { rewrite <- !Z.pow_add_r by (unfold SHIFT in *; lia). f_equal. lia. }
  assert (HV0 : 0 < V) by (unfold V; lia).
  assert (HVC : V <= C).
  { apply Z.mul_le_mono_pos_r with (2 ^ SHIFT); [exact HS |].
    apply Z.le_trans with (A * B); [| exact HC].
    unfold V. rewrite Pos2Z.inj_mul.
    replace (Zpos mx * Zpos my * 2 ^ (ex + ey + SHIFT) * 2 ^ SHIFT)
      with ((Zpos mx * 2 ^ (ex + SHIFT)) * (Zpos my * 2 ^ (ey + SHIFT))).
    - apply Z.mul_le_mono_nonneg; lia.
    - rewrite <- (Z.mul_assoc _ (2 ^ (ex + ey + SHIFT))), Hsplit. ring. }
  pose proof (rnd_mono prec emax Hprec SHIFT HK V C HV0 HVC) as Hm.
  destruct (binary_round_aux prec emax (xorb sx sy) (Zpos (mx * my))
              (ex + ey) loc_Exact) as [s | s | | s m' e']; cbn [magnitude_le].
  - exact I.
  - destruct H as [_ H]. lia.
  - exact H.
  - destruct H as (_ & Hb & _ & Hv). split; [exact Hb | lia].
Qed.

Lemma magnitude_le_valid (x : float) (B : Z) :
  magnitude_le F32.prec F32.emax B x -> F32.valid x = true.
Proof.
  destruct x as [s | s | | s m e]; cbn [magnitude_le]; try contradiction.
  - reflexivity.
  - intros [Hb _]. exact Hb.
Qed.

Lemma of_float_magnitude (x : float) (B : Z) :
  magnitude_le F32.prec F32.emax B x ->
  magnitude_le F64.prec F64.emax B (F64.of_float x).
Proof.
  intros H. pose proof (magnitude_le_valid x B H) as Hv.
  destruct x as [s | s | | s m e]; try exact H.
  destruct (of_float_value s m e Hv) as (m1 & e1 & -> & Hb1 & Hval).
  cbn [magnitude_le] in *. split; [exact Hb1 |]. rewrite Hval. apply H.
Qed.

Lemma of_double_magnitude (x : double) (B : Z) :
  magnitude_le F64.prec F64.emax B x ->
  rnd F32.prec F32.emax SHIFT B < 2 ^ (F32.emax + SHIFT) ->
  magnitude_le F32.prec F32.emax (rnd F32.prec F32.emax SHIFT B)
    (F32.of_double x).
Proof.
  intros H Hfit.
  destruct x as [s | s | | s m e]; cbn [magnitude_le] in H; try contradiction.
  - exact I.
  - destruct H as [Hb HB].
    destruct (bounded_inv F64.prec F64.emax m e ltac:(reflexivity) Hb)
      as [_ [He _]].
    change (emin F64.prec F64.emax) with (-1074) in He.
    assert (HeK : - SHIFT <= e) by (unfold SHIFT; lia).
    cbn [F32.of_double].
    pose proof (binary_round_rnd F32.prec F32.emax eq_refl eq_refl SHIFT
                  shift_below_emin32 s m e HeK) as H.
    assert (Hp : 0 < 2 ^ (e + SHIFT)) by (apply Z.pow_pos_nonneg; lia).
    pose proof (rnd_mono F32.prec F32.emax eq_refl SHIFT shift_below_emin32
                  (Zpos m * 2 ^ (e + SHIFT)) B ltac:(lia) HB) as Hm.
    destruct (binary_round F32.prec F32.emax s m e) as [s' | s' | | s' m' e'];
      cbn [magnitude_le].
    + exact I.
    + destruct H as [_ H]. lia.
    + exact H.
    + destruct H as (_ & Hb' & _ & Hv). split; [exact Hb' | lia].
Qed.

(** one sample: [mEnvelope() * mSource() * 0.05] converted to [float] *)
Lemma sample_magnitude (e s : float) :
  magnitude_le F32.prec F32.emax one_scaled e ->
  magnitude_le F32.prec F32.emax one_scaled s ->
  magnitude_le F32.prec F32.emax twentieth32
    (F32.of_double (scaled_sample e s)).
Proof.
  intros He Hs.
  assert (HS : 0 < 2 ^ SHIFT) by (apply Z.pow_pos_nonneg; unfold SHIFT; lia).
  assert (H1 : magnitude_le F32.prec F32.emax one_scaled (F32.mul e s)).
  { destruct e as [se | se | | se me ee]; cbn [magnitude_le] in He;
      try contradiction;
      destruct s as [ss | ss | | ss ms es]; cbn [magnitude_le] in Hs;
      try contradiction; try exact I.
    destruct He as [Hbe He], Hs as [Hbs Hs].
    destruct (bounded_inv F32.prec F32.emax me ee ltac:(reflexivity) Hbe)
      as [_ [Hee _]].
    destruct (bounded_inv F32.prec F32.emax ms es ltac:(reflexivity) Hbs)
      as [_ [Hes _]].
    change (emin F32.prec F32.emax) with (-149) in Hee, Hes.
    assert (E : rnd F32.prec F32.emax SHIFT one_scaled = one_scaled)
      by (vm_compute; reflexivity).
    rewrite <- E. unfold F32.mul.
    apply mul_finite_magnitude with (A := one_scaled) (B := one_scaled);
      try reflexivity; try assumption.
    - exact shift_below_emin32.
    - discriminate.
    - unfold SHIFT. lia. }
  apply of_float_magnitude in H1.
  assert (H3 : magnitude_le F64.prec F64.emax twentieth64
                 (scaled_sample e s)).
  { unfold scaled_sample.
    destruct (F64.of_float (F32.mul e s)) as [sp | sp | | sp mp ep];
      cbn [magnitude_le] in H1; try contradiction.
    - exact I.
    - destruct H1 as [Hbp Hp].
      destruct (bounded_inv F64.prec F64.emax mp ep ltac:(reflexivity) Hbp)
        as [_ [Hep _]].
      change (emin F64.prec F64.emax) with (-1074) in Hep.
      assert (Ed : d_0_05 = S754_finite false 7205759403792794 (-57))
        by (vm_compute; reflexivity).
      assert (E : rnd F64.prec F64.emax SHIFT twentieth64 = twentieth64)
        by (vm_compute; reflexivity).
      rewrite Ed, <- E. unfold F64.mul.
      apply mul_finite_magnitude with (A := one_scaled) (B := twentieth64);
        try reflexivity; try assumption.
      + exact shift_below_emin64.
      + discriminate.
      + unfold SHIFT. lia. }
  assert (E : rnd F32.prec F32.emax SHIFT twentieth64 = twentieth32)
    by (vm_compute; reflexivity).
  rewrite <- E. apply of_double_magnitude; [exact H3 |].
  rewrite E. vm_compute. reflexivity.
Qed.

(** a bound on the value of a finite float, on both sides, is a bound
    on its magnitude *)
Lemma value_in_magnitude (s : bool) (m : positive) (e : Z) (a : Z)
    (b : positive) :
  - SHIFT <= e ->
  value_in (Qmake (- a) b) (Qmake a b) (S754_finite s m e) <->
  Zpos m * 2 ^ (e + SHIFT) * Zpos b <= a * 2 ^ SHIFT.
Proof.
  intros He.
  assert (HK : 0 <= SHIFT) by (unfold SHIFT; lia).
  assert (HS : 0 < 2 ^ SHIFT) by (apply Z.pow_pos_nonneg; lia).
  assert (Hp : 0 < 2 ^ (e + SHIFT)) by (apply Z.pow_pos_nonneg; lia).
  pose proof (value_scaled SHIFT m e HK He) as Hval.
  assert (Hneg : Qeq (Qmult (inject_Z (Zneg m)) (Qpow2 e))
                     (Qopp (Qmult (inject_Z (Zpos m)) (Qpow2 e)))).
  { unfold Qeq, Qopp, Qmult, inject_Z. cbn [Qnum Qden].
    rewrite <- Pos2Z.opp_pos. ring. }
  split.
  - intros (q & Hq & Hlo & Hhi). cbn [finite_value] in Hq.
    injection Hq as <-.
    destruct s; cbn [cond_Zopp Z.opp] in *.
    + rewrite Hneg, Hval in Hlo. unfold Qle, Qopp in Hlo.
      cbn [Qnum Qden] in Hlo. rewrite Z2Pos.id in Hlo by exact HS. lia.
    + rewrite Hval in Hhi. unfold Qle in Hhi.
      cbn [Qnum Qden] in Hhi. rewrite Z2Pos.id in Hhi by exact HS. lia.
  - intros H. eexists. split; [reflexivity |].
    destruct s; cbn [cond_Zopp Z.opp].
    + rewrite Hneg, Hval. unfold Qle, Qopp. cbn [Qnum Qden].
      rewrite Z2Pos.id by exact HS. split; nia.
    + rewrite Hval. unfold Qle. cbn [Qnum Qden].
      rewrite Z2Pos.id by exact HS. split; nia.
Qed.

Lemma unit_magnitude (x : float) :
  F32.valid x = true ->
  value_in (Qmake (-1) 1) (Qmake 1 1) x ->
  magnitude_le F32.prec F32.emax one_scaled x.
Proof.
  intros Hv Hin.
  destruct x as [s | s | | s m e]; cbn [magnitude_le].
  - exact I.
  - destruct Hin as (q & Hq & _). discriminate Hq.
  - destruct Hin as (q & Hq & _). discriminate Hq.
  - unfold F32.valid in Hv. cbn [valid_binary] in Hv.
    split; [exact Hv |].
    destruct (bounded_inv F32.prec F32.emax m e ltac:(reflexivity) Hv)
      as [_ [He _]].
    change (emin F32.prec F32.emax) with (-149) in He.
    apply (value_in_magnitude s m e 1 1) in Hin; [| unfold SHIFT; lia].
    unfold one_scaled. lia.
Qed.

Lemma twentieth_magnitude (x : float) :
  magnitude_le F32.prec F32.emax twentieth32 x ->
  value_in (Qmake (-13421773) 268435456) (Qmake 13421773 268435456) x.
Proof.
  intros H.
  destruct x as [s | s | | s m e]; cbn [magnitude_le] in H;
    try contradiction.
  - eexists. split; [reflexivity |]. split; vm_compute; discriminate.
  - destruct H as [Hb H].
    destruct (bounded_inv F32.prec F32.emax m e ltac:(reflexivity) Hb)
      as [_ [He _]].
    change (emin F32.prec F32.emax) with (-149) in He.
    apply (value_in_magnitude s m e 13421773 268435456);
      [unfold SHIFT; lia |].
    assert (E : twentieth32 * 268435456 = 13421773 * 2 ^ SHIFT)
      by (vm_compute; reflexivity).
    rewrite <- E. apply Z.mul_le_mono_nonneg_r; [lia | exact H].
Qed.

Section Loudness.
Context `{FW : Framework}.

(** X11. A block of the spatialized voice whose envelope and oscillator
    give, at each draw of the block, valid floats between -1 and 1:
    every frame the block writes on bus 0 holds a valid float between
    -0.05f and 0.05f, the float nearest to 0.05, whatever rounding the
    float product, the double scaling and the conversion back to float
    make. *)
Theorem onProcess_bus_within_a_twentieth
    (v : Spatialization.MyVoice) (io : AudioIOData)
    (Henv : forall i, (i < framesPerBuffer io - frame io)%nat ->
              F32.valid (AD_sample i (Spatialization.mEnvelope v)) = true /\
              value_in (Qmake (-1) 1) (Qmake 1 1)
                (AD_sample i (Spatialization.mEnvelope v)))
    (Hsrc : forall i, (i < framesPerBuffer io - frame io)%nat ->
              F32.valid (Sine_sample i (Spatialization.mSource v)) = true /\
              value_in (Qmake (-1) 1) (Qmake 1 1)
                (Sine_sample i (Spatialization.mSource v))) :
  forall (i : nat) (x : float),
    (frame io <= i < framesPerBuffer io)%nat ->
    busBuffer0 (Spatialization.onProcess v io).1.2 !! i = Some x ->
    F32.valid x = true /\
    value_in (Qmake (-13421773) 268435456) (Qmake 13421773 268435456) x.
Proof.
  intros i x Hi Hx.
  pose proof (spat_block (framesPerBuffer io - frame io) (frame io)
                v (busBuffer0 io)) as H.
  cbn zeta in H. destruct H as (_ & _ & _ & Hl & _ & _ & Hmid).
  unfold Spatialization.onProcess in Hx.
  destruct (while_io _ _ _ _) as [v1 bus]. cbn [fst snd busBuffer0] in *.
  assert (Hlen : (i < length (busBuffer0 io))%nat).
  { rewrite <- Hl. apply lookup_lt_is_Some. now exists x. }
  specialize (Hmid (i - frame io)%nat ltac:(lia) ltac:(lia)).
  replace (frame io + (i - frame io))%nat with i in Hmid by lia.
  rewrite Hmid in Hx. injection Hx as <-.
  destruct (Henv (i - frame io)%nat ltac:(lia)) as [Hve Hie].
  destruct (Hsrc (i - frame io)%nat ltac:(lia)) as [Hvs His].
  pose proof (sample_magnitude _ _ (unit_magnitude _ Hve Hie)
                (unit_magnitude _ Hvs His)) as Hm.
  split.
  - exact (magnitude_le_valid _ _ Hm).
  - apply twentieth_magnitude. exact Hm.
Qed.
End Loudness.

Lemma onProcess_bus_within_a_twentieth_witness :
  busBuffer0 (Spatialization.onProcess Demo.spat_voice Demo.io).1.2 !! 0%nat =
    Some (S754_finite true 13421773 (-28)) /\
  F32.valid (S754_finite true 13421773 (-28)) = true /\
  value_in (Qmake (-13421773) 268435456) (Qmake 13421773 268435456)
    (S754_finite true 13421773 (-28)).
Proof.
  split; [vm_compute; reflexivity |].
  apply (onProcess_bus_within_a_twentieth (FW := Demo.framework)
           Demo.spat_voice Demo.io) with (i := 0%nat).
  - intros i Hi. cbn in Hi.
    destruct i as [| [| [| [| i]]]]; try lia;
      (split; [vm_compute; reflexivity |]);
      (eexists; split; [reflexivity |]; split; vm_compute; discriminate).
  - intros i Hi. cbn in Hi.
    destruct i as [| [| [| [| i]]]]; try lia;
      (split; [vm_compute; reflexivity |]);
      (eexists; split; [reflexivity |]; split; vm_compute; discriminate).
  - cbn. lia.
  - vm_compute. reflexivity.
Defined.
